(** * Orthogonal edge layout: points, rectangles and the segment drag handle

    A shallow embedding of [src/layout/edge/point.ts] and of the drag handler
    of the [EdgeController] component, followed by the properties of the
    point-set optimizer, the intersection tests and the drag translation.

    Numbers.  A JavaScript [number] is modelled as an exact rational [Q]:
    [+], [-], [*], [/] are the field operations, [Math.floor] is [Qfloor],
    [Math.abs] is [Qabs], [===] on numbers is [Qeq_bool] and the order
    comparisons are the decidable order of [Q].  [NaN], the infinities, the
    sign of zero and rounding are outside the model: where the code rounds
    a sum, a difference, a product or a quotient to the nearest double, the
    model has the exact result.  The properties of the rect and of the
    intersection functions are therefore stated on comparisons, on copied
    and selected coordinates and on the sign of a sum or a difference, not
    on identities of exact arithmetic. *)

From Stdlib Require Import String QArith Qround Qabs Qminmax ZArith Bool Arith Lia Lqa List.
From Stdlib Require Import DecimalString.
Import ListNotations.

Local Open Scope Q_scope.

(** ** Numbers *)

Definition Qltb (a b : Q) : bool := negb (Qle_bool b a).
Definition Qgeb (a b : Q) : bool := Qle_bool b a.

(** [Math.floor], as a number again. *)
Definition floor (v : Q) : Q := inject_Z (Qfloor v).

(** ** Data model *)

(** [Position] of reactflow: the side of a node a handle sits on. *)
Inductive Position : Type := Left | Top | Right | Bottom.

Record ControlPoint : Type := mkControlPoint {
  id : string;
  x : Q;
  y : Q
}.

(** [interface HandlePosition extends ControlPoint]. *)
Record HandlePosition : Type := mkHandlePosition {
  point :> ControlPoint;
  position : Position
}.

Module Rect.
Record NodeRect : Type := mkNodeRect {
  x : Q; (* left *)
  y : Q; (* top *)
  width : Q;
  height : Q
}.
End Rect.
Abbreviation NodeRect := Rect.NodeRect.

Record RectSides : Type := mkRectSides {
  top : Q;
  right : Q;
  bottom : Q;
  left : Q
}.

(** Modelled from the spec: [isHorizontalFromPosition] is imported from
    [./edge], which is not part of the sources; the anchor of a Left or Right
    handle moves along x, the anchor of a Top or Bottom handle along y. *)
Definition isHorizontalFromPosition (p : Position) : bool :=
  match p with
  | Left | Right => true
  | Top | Bottom => false
  end.

(** The identifiers produced by [uuid()] carry no meaning for the geometry;
    every fresh point gets the same placeholder. *)
Definition uuid : string := "uuid"%string.

(** ** Geometry primitives *)

Definition getExpandedRect (rect : NodeRect) (offset : Q) : NodeRect :=
  {| Rect.x := Rect.x rect - offset;
     Rect.y := Rect.y rect - offset;
     Rect.width := Rect.width rect + 2 * offset;
     Rect.height := Rect.height rect + 2 * offset |}.

Definition isRectOverLapping (rect1 rect2 : NodeRect) : bool :=
  Qltb (Qabs (Rect.x rect1 - Rect.x rect2))
       ((Rect.width rect1 + Rect.width rect2) / 2)
  && Qltb (Qabs (Rect.y rect1 - Rect.y rect2))
          ((Rect.height rect1 + Rect.height rect2) / 2).

Definition getRectSides (box : NodeRect) : RectSides :=
  let left := Rect.x box in
  let top := Rect.y box in
  let right := left + Rect.width box in
  let bottom := top + Rect.height box in
  {| top := top; right := right; bottom := bottom; left := left |}.

Definition isPointInRect (p : ControlPoint) (box : NodeRect) : bool :=
  let sides := getRectSides box in
  Qgeb (x p) (left sides) && Qle_bool (x p) (right sides)
  && Qgeb (y p) (top sides) && Qle_bool (y p) (bottom sides).

(** The four corners, clockwise from the top left one. *)
Definition getRectVerticesFromSides (s : RectSides) : list ControlPoint :=
  [ mkControlPoint uuid (left s) (top s);
    mkControlPoint uuid (right s) (top s);
    mkControlPoint uuid (right s) (bottom s);
    mkControlPoint uuid (left s) (bottom s) ].

Definition getRectVertices (box : NodeRect) : list ControlPoint :=
  getRectVerticesFromSides (getRectSides box).

Definition getOffsetPoint (box : HandlePosition) (offset : Q) : ControlPoint :=
  match position box with
  | Top => mkControlPoint uuid (x box) (y box - offset)
  | Bottom => mkControlPoint uuid (x box) (y box + offset)
  | Left => mkControlPoint uuid (x box - offset) (y box)
  | Right => mkControlPoint uuid (x box + offset) (y box)
  end.

(** Is the point [p] on the axis-parallel segment from [p1] to [p2]? *)
Definition isInLine (p p1 p2 : ControlPoint) : bool :=
  let xPoints := if Qltb (x p1) (x p2) then (x p1, x p2) else (x p2, x p1) in
  let yPoints := if Qltb (y p1) (y p2) then (y p1, y p2) else (y p2, y p1) in
  (Qeq_bool (x p1) (x p) && Qeq_bool (x p) (x p2)
   && Qgeb (y p) (fst yPoints) && Qle_bool (y p) (snd yPoints))
  || (Qeq_bool (y p1) (y p) && Qeq_bool (y p) (y p2)
      && Qgeb (x p) (fst xPoints) && Qle_bool (x p) (snd xPoints)).

Definition isOnLine (p p1 p2 : ControlPoint) : bool :=
  (Qeq_bool (x p1) (x p) && Qeq_bool (x p) (x p2))
  || (Qeq_bool (y p1) (y p) && Qeq_bool (y p) (y p2)).

Definition isEqualPoint (p1 p2 : ControlPoint) : bool :=
  Qeq_bool (x p1) (x p2) && Qeq_bool (y p1) (y p2).

(** ** Coordinate merging *)

Inductive Axis : Type := AxisX | AxisY.

(** The closure variable [positions = { x: [], y: [] }]. *)
Record Positions : Type := mkPositions {
  onX : list Q;
  onY : list Q
}.

Definition positionsOf (positions : Positions) (axis : Axis) : list Q :=
  match axis with AxisX => onX positions | AxisY => onY positions end.

Definition pushPosition (positions : Positions) (axis : Axis) (v : Q) : Positions :=
  match axis with
  | AxisX => {| onX := onX positions ++ [v]; onY := onY positions |}
  | AxisY => {| onX := onX positions; onY := onY positions ++ [v] |}
  end.

(** [findPosition]: the representative of [v] on [axis], and the updated
    table of representatives. *)
Definition findPosition (threshold : Q) (positions : Positions) (axis : Axis)
    (v : Q) : Q * Positions :=
  let v := floor v in
  let ps := positionsOf positions axis in
  match find (fun e => Qltb (Qabs (v - e)) threshold) ps with
  | Some p => (p, positions)
  | None => (v, pushPosition positions axis v)
  end.

(** [points.map(...)], threading the table through the calls. *)
Fixpoint mergeFrom (threshold : Q) (positions : Positions)
    (points : list ControlPoint) : list ControlPoint :=
  match points with
  | [] => []
  | point :: rest =>
      let '(px, positions) := findPosition threshold positions AxisX (x point) in
      let '(py, positions) := findPosition threshold positions AxisY (y point) in
      {| id := id point; x := px; y := py |} :: mergeFrom threshold positions rest
  end.

Definition mergeClosePoints (points : list ControlPoint) (threshold : Q)
    : list ControlPoint :=
  mergeFrom threshold {| onX := []; onY := [] |} points.

(** The default value of the [threshold] parameter. *)
Definition defaultThreshold : Q := 4.

(** ** Duplicate removal *)

(** The key [`${p.x}-${p.y}`].  The decimal rendering of a number never is
    empty, never ends in [-] or [e] and has a [-] only in front or right after
    an [e], so two keys are the same string exactly when both coordinates are
    the same numbers: the key is modelled by the pair of coordinates, compared
    as numbers, and the [Set] of keys by the list of its members. *)
Definition Key : Type := (Q * Q)%type.

Definition keyOf (p : ControlPoint) : Key := (x p, y p).

Definition key_eqb (k1 k2 : Key) : bool :=
  Qeq_bool (fst k1) (fst k2) && Qeq_bool (snd k1) (snd k2).

Definition setHas (s : list Key) (k : Key) : bool := existsb (key_eqb k) s.

Definition setAdd (s : list Key) (k : Key) : list Key :=
  if setHas s k then s else s ++ [k].

(** [points.map((p, idx) => ...)] and [points.forEach((p, idx) => ...)] see
    every element together with its index. *)
Definition indexed {A : Type} (l : list A) : list (nat * A) :=
  combine (seq 0 (length l)) l.

(** One call of the [forEach] callback on the state
    [(uniquePoints, finalPoints)]. *)
Definition removeRepeatStep (len : nat) (st : list Key * list ControlPoint)
    (ip : nat * ControlPoint) : list Key * list ControlPoint :=
  let '(uniquePoints, finalPoints) := st in
  let '(idx, p) := ip in
  if (idx =? len - 1)%nat then (uniquePoints, finalPoints ++ [p])
  else
    let key := keyOf p in
    if negb (setHas uniquePoints key)
    then (setAdd uniquePoints key, finalPoints ++ [p])
    else (uniquePoints, finalPoints).

(** [None] is the [TypeError] raised by [lastP.x] on an empty array. *)
Definition removeRepeatPoints (points : list ControlPoint)
    : option (list ControlPoint) :=
  match nth_error points (length points - 1) with
  | None => None
  | Some lastP =>
      let uniquePoints := [keyOf lastP] in
      Some (snd (fold_left (removeRepeatStep (length points))
                           (indexed points) (uniquePoints, [])))
  end.

(** ** Collinearity reduction *)

(** An array element is [None] where JavaScript reads [undefined]: both
    [points[0]] and [points[points.length - 1]] of an empty array. *)
Definition reduceStep (points : list ControlPoint)
    (optimizedPoints : list (option ControlPoint)) (i : nat)
    : list (option ControlPoint) :=
  match nth_error points i, nth_error points (i - 1), nth_error points (i + 1) with
  | Some p, Some p1, Some p2 =>
      let inSegment := isInLine p p1 p2 in
      if negb inSegment then optimizedPoints ++ [Some p] else optimizedPoints
  | _, _, _ => optimizedPoints (* never read: 1 <= i < length - 1 *)
  end.

Definition reducePoints (points : list ControlPoint)
    : list (option ControlPoint) :=
  let optimizedPoints := [nth_error points 0] in
  let optimizedPoints :=
    fold_left (reduceStep points) (seq 1 (length points - 2)) optimizedPoints in
  optimizedPoints ++ [nth_error points (length points - 1)].

(** ** The optimizer *)

Record OptimizePointsParams : Type := mkOptimizePointsParams {
  edgePoints : list ControlPoint;
  source : HandlePosition;
  target : HandlePosition;
  sourceOffset : ControlPoint;
  targetOffset : ControlPoint
}.

(** The object returned by [optimizeInputPoints]. *)
Record OptimizedPoints : Type := mkOptimizedPoints {
  outSource : ControlPoint;
  outTarget : ControlPoint;
  outSourceOffset : ControlPoint;
  outTargetOffset : ControlPoint;
  outEdgePoints : list ControlPoint
}.

Definition setX (p : ControlPoint) (v : Q) : ControlPoint :=
  {| id := id p; x := v; y := y p |}.
Definition setY (p : ControlPoint) (v : Q) : ControlPoint :=
  {| id := id p; x := x p; y := v |}.
Definition setId (p : ControlPoint) (i : string) : ControlPoint :=
  {| id := i; x := x p; y := y p |}.

(** [`${n}`] for an array index. *)
Definition showNat (n : nat) : string := NilEmpty.string_of_uint (Nat.to_uint n).

(** [Array.prototype.shift] and [Array.prototype.pop]: the removed element
    ([None] for [undefined]) and the remaining array. *)
Definition shift {A : Type} (l : list A) : option A * list A := (hd_error l, tl l).
Definition pop {A : Type} (l : list A) : option A * list A :=
  (nth_error l (length l - 1), removelast l).

Definition bind {A B : Type} (m : option A) (f : A -> option B) : option B :=
  match m with Some a => f a | None => None end.

Notation "' pat <- m ;; k" := (bind m (fun pat => k))
  (at level 61, pat pattern, m at next level, right associativity).
Notation "v <- m ;; k" := (bind m (fun v => k))
  (at level 61, m at next level, right associativity).

(** [None] stands for a [TypeError]: writing a field of [undefined] after
    [shift] or [pop], or [removeRepeatPoints] reading its last point.  The
    source, the target and the two offsets make the merged array at least
    four long, so this never happens (see [optimizeInputPoints_total]);
    [sourceOffset0] and [targetOffset0] are read from an array that
    [removeRepeatPoints] has accepted, which is not empty.  The merged source
    and target objects also carry the [position] the spread copies; the
    result is read as [ControlPoint]s. *)
Definition optimizeInputPoints (p : OptimizePointsParams) : option OptimizedPoints :=
  let edgePoints0 :=
    mergeClosePoints
      ([point (source p); sourceOffset p] ++ edgePoints p
       ++ [targetOffset p; point (target p)]) defaultThreshold in
  let '(source0, edgePoints1) := shift edgePoints0 in
  let '(target0, edgePoints2) := pop edgePoints1 in
  let sourceOffset0 := nth_error edgePoints2 0 in
  let targetOffset0 := nth_error edgePoints2 (length edgePoints2 - 1) in
  source0 <- source0 ;;
  let source1 :=
    if isHorizontalFromPosition (position (source p))
    then setX source0 (x (source p)) else setY source0 (y (source p)) in
  target0 <- target0 ;;
  let target1 :=
    if isHorizontalFromPosition (position (target p))
    then setX target0 (x (target p)) else setY target0 (y (target p)) in
  edgePoints3 <- removeRepeatPoints edgePoints2 ;;
  let edgePoints4 :=
    map (fun '(idx, p) => setId p (showNat (idx + 1))) (indexed edgePoints3) in
  sourceOffset0 <- sourceOffset0 ;;
  targetOffset0 <- targetOffset0 ;;
  Some {| outSource := source1; outTarget := target1;
          outSourceOffset := sourceOffset0; outTargetOffset := targetOffset0;
          outEdgePoints := edgePoints4 |}.

(** ** Intersection tests *)

Definition isSegmentsIntersected (p0 p1 p2 p3 : ControlPoint) : bool :=
  let s1x := x p1 - x p0 in
  let s1y := y p1 - y p0 in
  let s2x := x p3 - x p2 in
  let s2y := y p3 - y p2 in
  if Qeq_bool (s1x * s2y - s1y * s2x) 0 then
    (* Lines are parallel, no intersection *)
    false
  else
    let denominator := - s2x * s1y + s1x * s2y in
    let s := (s1y * (x p2 - x p0) - s1x * (y p2 - y p0)) / denominator in
    let t := (s2x * (y p0 - y p2) - s2y * (x p0 - x p2)) / denominator in
    Qgeb s 0 && Qle_bool s 1 && Qgeb t 0 && Qle_bool t 1.

Definition isSegmentCrossingRect (p1 p2 : ControlPoint) (box : NodeRect) : bool :=
  if Qeq_bool (Rect.width box) 0 && Qeq_bool (Rect.height box) 0 then false
  else
    match getRectVertices box with
    | [topLeft; topRight; bottomRight; bottomLeft] =>
        isSegmentsIntersected p1 p2 topLeft topRight
        || isSegmentsIntersected p1 p2 topRight bottomRight
        || isSegmentsIntersected p1 p2 bottomRight bottomLeft
        || isSegmentsIntersected p1 p2 bottomLeft topLeft
    | _ => false (* getRectVertices always returns four points *)
    end.

(** ** The drag handle of a segment *)

(** A screen or flow coordinate [{ x, y }]. *)
Module XY.
Record t : Type := mk { x : Q; y : Q }.
End XY.

(** [ILine]: a segment of the path.  ([end] is reserved in Rocq.) *)
Record ILine : Type := mkILine {
  start : ControlPoint;
  end_ : ControlPoint
}.

(** The argument [edge.onDragging] is called with. *)
Record DragEvent : Type := mkDragEvent {
  dragId : string;
  from : ILine;
  to : ILine
}.

Section EdgeController.

(** The injected viewport transform [kReactflow.instance.screenToFlowPosition]. *)
Variable screenToFlowPosition : XY.t -> XY.t.

Definition flowDelta (position delta : XY.t) : XY.t :=
  let oldFlowPosition :=
    screenToFlowPosition
      {| XY.x := XY.x position - XY.x delta; XY.y := XY.y position - XY.y delta |} in
  let newFlowPosition := screenToFlowPosition position in
  {| XY.x := XY.x newFlowPosition - XY.x oldFlowPosition;
     XY.y := XY.y newFlowPosition - XY.y oldFlowPosition |}.

(** The [onDragging] callback [EdgeController] hands to [useDraggable], for
    the segment from [start] to [end_]: the event it passes on. *)
Definition onDragging (edge : ILine) (dragId : string) (position delta : XY.t)
    : DragEvent :=
  let isHorizontal := Qeq_bool (y (start edge)) (y (end_ edge)) in
  let flowDelta := flowDelta position delta in
  let newStart := start edge in
  let newEnd := end_ edge in
  let '(newStart, newEnd) :=
    if isHorizontal
    then (setY newStart (y newStart + XY.y flowDelta),
          setY newEnd (y newEnd + XY.y flowDelta))
    else (setX newStart (x newStart + XY.x flowDelta),
          setX newEnd (x newEnd + XY.x flowDelta)) in
  {| dragId := dragId;
     from := {| start := start edge; end_ := end_ edge |};
     to := {| start := newStart; end_ := newEnd |} |}.

End EdgeController.

(** ** Bounding sides, merged rects and candidate points *)

(** [Math.min(...vs)] and [Math.max(...vs)].  Of no number at all they are
    [Infinity] and [-Infinity], which are no numbers of the model: [None]. *)
Definition minOf (vs : list Q) : option Q :=
  match vs with
  | [] => None
  | v :: rest => Some (fold_left Qmin rest v)
  end.

Definition maxOf (vs : list Q) : option Q :=
  match vs with
  | [] => None
  | v :: rest => Some (fold_left Qmax rest v)
  end.

Definition getSidesFromPoints (points : list ControlPoint) : option RectSides :=
  left <- minOf (map x points) ;;
  right <- maxOf (map x points) ;;
  top <- minOf (map y points) ;;
  bottom <- maxOf (map y points) ;;
  Some {| top := top; right := right; bottom := bottom; left := left |}.

(** The corners of the smallest rect around [box] and [vertex]. *)
Definition getVerticesFromRectVertex (box : NodeRect) (vertex : ControlPoint)
    : option (list ControlPoint) :=
  let points := vertex :: getRectVertices box in
  sides <- getSidesFromPoints points ;;
  Some [ mkControlPoint uuid (left sides) (top sides);
         mkControlPoint uuid (right sides) (top sides);
         mkControlPoint uuid (right sides) (bottom sides);
         mkControlPoint uuid (left sides) (bottom sides) ].

(** [boxes.reduce((pre, e) => [...pre, e.x, e.x + e.width], [])] and the same
    for y and height. *)
Definition spanX (boxes : list NodeRect) : list Q :=
  flat_map (fun e => [Rect.x e; Rect.x e + Rect.width e]) boxes.
Definition spanY (boxes : list NodeRect) : list Q :=
  flat_map (fun e => [Rect.y e; Rect.y e + Rect.height e]) boxes.

Definition mergeRects (boxes : list NodeRect) : option NodeRect :=
  left <- minOf (spanX boxes) ;;
  right <- maxOf (spanX boxes) ;;
  top <- minOf (spanY boxes) ;;
  bottom <- maxOf (spanY boxes) ;;
  Some {| Rect.x := left; Rect.y := top;
          Rect.width := right - left; Rect.height := bottom - top |}.

Module GetVertices.
Record GetVerticesParams : Type := mk {
  source : NodeRect;
  target : NodeRect;
  sourceOffset : ControlPoint;
  targetOffset : ControlPoint
}.
End GetVertices.

(** The candidate points between and around two rects. *)
Definition getCenterPoints (p : GetVertices.GetVerticesParams)
    : option (list ControlPoint) :=
  let source := GetVertices.source p in
  let target := GetVertices.target p in
  let sourceOffset := GetVertices.sourceOffset p in
  let targetOffset := GetVertices.targetOffset p in
  if Qeq_bool (x sourceOffset) (x targetOffset)
     || Qeq_bool (y sourceOffset) (y targetOffset)
  then
    (* Horizontal or vertical straight lines cannot determine the rectangle *)
    Some []
  else
    let vertices := getRectVertices source ++ getRectVertices target in
    outerSides <- getSidesFromPoints vertices ;;
    sides <- getSidesFromPoints [sourceOffset; targetOffset] ;;
    let centerX := (left sides + right sides) / 2 in
    let centerY := (top sides + bottom sides) / 2 in
    let points :=
      [ mkControlPoint uuid centerX (top sides);          (* topCenter *)
        mkControlPoint uuid (right sides) centerY;        (* rightCenter *)
        mkControlPoint uuid centerX (bottom sides);       (* bottomCenter *)
        mkControlPoint uuid (left sides) centerY;         (* leftCenter *)
        mkControlPoint uuid centerX (top outerSides);     (* outerTop *)
        mkControlPoint uuid (right outerSides) centerY;   (* outerRight *)
        mkControlPoint uuid centerX (bottom outerSides);  (* outerBottom *)
        mkControlPoint uuid (left outerSides) centerY ]   (* outerLeft *) in
    Some (filter (fun p => negb (isPointInRect p source)
                           && negb (isPointInRect p target)) points).

(** ** The segments of a path and their partners *)

(** The loop of [EdgeControllers] that cuts the path into segments. *)
Definition buildEdges (points : list ControlPoint) : list ILine :=
  flat_map (fun i =>
              match nth_error points i, nth_error points (i + 1) with
              | Some s, Some e => [{| start := s; end_ := e |}]
              | _, _ => [] (* never read: i + 1 < length *)
              end)
           (seq 0 (length points - 1)).

(** What [EdgeControllers] itself puts into a [SmartEdge] (the class is not
    part of the sources): its index, its two points, and [previous] and
    [next], references to other elements of [smartEdges], given here by the
    index of the element; [None] is [undefined]. *)
Record SmartEdge : Type := mkSmartEdge {
  idx : nat;
  edgeLine : ILine;
  previous : option nat;
  next : option nat
}.

(** [smartEdges[i]] for an integer [i] that may be negative or too large. *)
Definition elementIndex (len : nat) (i : Z) : option nat :=
  if (0 <=? i)%Z && (i <? Z.of_nat len)%Z then Some (Z.to_nat i) else None.

Definition buildSmartEdges (points : list ControlPoint) : list SmartEdge :=
  let edges := buildEdges points in
  map (fun '(idx, e) =>
         {| idx := idx; edgeLine := e;
            previous := elementIndex (length edges) (Z.of_nat idx - 2);
            next := elementIndex (length edges) (Z.of_nat idx + 2) |})
      (indexed edges).

(** * Definitions for the statements and the proofs *)

(** ** Arrays *)

(** A point with integer coordinates, for the examples. *)
Definition pt (i : string) (a b : Z) : ControlPoint :=
  mkControlPoint i (inject_Z a) (inject_Z b).

(** [l[l.length - 1]]. *)
Definition lastOf {A : Type} (l : list A) : option A :=
  nth_error l (length l - 1).

(** ** Coordinate merging *)

(** The table [{ x: [], y: [] }] the merge starts from. *)
Definition emptyTable : Positions := {| onX := []; onY := [] |}.

(** The table once [points] have been mapped, starting from [positions]. *)
Fixpoint tableAfter (threshold : Q) (positions : Positions)
    (points : list ControlPoint) : Positions :=
  match points with
  | [] => positions
  | point :: rest =>
      let positions := snd (findPosition threshold positions AxisX (x point)) in
      let positions := snd (findPosition threshold positions AxisY (y point)) in
      tableAfter threshold positions rest
  end.

(** What one point becomes under the table [positions]. *)
Definition mergeOne (threshold : Q) (positions : Positions) (point : ControlPoint)
    : ControlPoint :=
  let r := findPosition threshold positions AxisX (x point) in
  {| id := id point; x := fst r;
     y := fst (findPosition threshold (snd r) AxisY (y point)) |}.

(** [pos] holds only numbers of [R] on [axis]. *)
Definition within (pos R : Positions) (axis : Axis) : Prop :=
  forall e, In e (positionsOf pos axis) -> In e (positionsOf R axis).

(** The numbers of a table are integers, and two of them on one axis that are
    less than the threshold apart are the same number. *)
Definition Settled (t : Q) (R : Positions) : Prop :=
  (forall ax a, In a (positionsOf R ax) -> floor a = a)
  /\ (forall ax a b, In a (positionsOf R ax) -> In b (positionsOf R ax) ->
                     Qltb (Qabs (a - b)) t = true -> a = b).

(** The coordinate of [p] on [axis]. *)
Definition coordinate (axis : Axis) (p : ControlPoint) : Q :=
  match axis with AxisX => x p | AxisY => y p end.

(** The claim in the words of the specification, for the points at the
    places [i] and [j] of [points] and their merged points: closer than the
    threshold on an axis, they get the same coordinate on it; farther apart
    than the threshold, they never do. *)
Definition collapsesWithinThreshold (points : list ControlPoint) : Prop :=
  forall axis i j p q p' q',
    nth_error points i = Some p -> nth_error points j = Some q ->
    nth_error (mergeClosePoints points defaultThreshold) i = Some p' ->
    nth_error (mergeClosePoints points defaultThreshold) j = Some q' ->
    Qabs (coordinate axis p - coordinate axis q) < defaultThreshold ->
    coordinate axis p' = coordinate axis q'.

(** The second half of the claim. *)
Definition separatesBeyondThreshold (points : list ControlPoint) : Prop :=
  forall axis i j p q p' q',
    nth_error points i = Some p -> nth_error points j = Some q ->
    nth_error (mergeClosePoints points defaultThreshold) i = Some p' ->
    nth_error (mergeClosePoints points defaultThreshold) j = Some q' ->
    defaultThreshold < Qabs (coordinate axis p - coordinate axis q) ->
    coordinate axis p' <> coordinate axis q'.

(** ** Duplicate removal *)

(** The points of [l] the callback pushes when none of them is the last
    element of the array: those whose key is not in the set yet. *)
Fixpoint dedupFrom (uniquePoints : list Key) (l : list ControlPoint)
    : list ControlPoint :=
  match l with
  | [] => []
  | p :: rest =>
      if setHas uniquePoints (keyOf p) then dedupFrom uniquePoints rest
      else p :: dedupFrom (uniquePoints ++ [keyOf p]) rest
  end.

(** The policy in the words of the specification: a point is dropped when
    its coordinates are those of a later point, except that the first and the
    last point of the list are kept. *)
Definition removeRepeatPoints_asSpecified (points : list ControlPoint)
    : list ControlPoint :=
  map snd
      (filter (fun '(idx, p) =>
                 (idx =? 0)%nat || (idx =? length points - 1)%nat
                 || negb (existsb (isEqualPoint p) (skipn (idx + 1) points)))
              (indexed points)).

(** The policy of the loop for the points between the first and the last:
    a point stays when its coordinates are neither those of the last point
    nor those of a point before it ([earlier] holds the points before [l]). *)
Fixpoint firstOccurrences (earlier : list ControlPoint) (lastP : ControlPoint)
    (l : list ControlPoint) : list ControlPoint :=
  match l with
  | [] => []
  | p :: rest =>
      if isEqualPoint p lastP || existsb (isEqualPoint p) earlier
      then firstOccurrences (earlier ++ [p]) lastP rest
      else p :: firstOccurrences (earlier ++ [p]) lastP rest
  end.

(** The set holds the keys of the last point and of the points seen so far. *)
Definition tracks (seen : list Key) (lastP : ControlPoint)
    (earlier : list ControlPoint) : Prop :=
  forall p, setHas seen (keyOf p)
            = isEqualPoint p lastP || existsb (isEqualPoint p) earlier.

(** ** The optimizer *)

(** The array handed to [mergeClosePoints]. *)
Definition mergedInput (p : OptimizePointsParams) : list ControlPoint :=
  [point (source p); sourceOffset p] ++ edgePoints p
  ++ [targetOffset p; point (target p)].

(** Endpoint correction of the merged point [q] of the handle [h]. *)
Definition corrected (h : HandlePosition) (q : ControlPoint) : ControlPoint :=
  if isHorizontalFromPosition (position h) then setX q (x h) else setY q (y h).

(** The renumbering [.map((p, idx) => ({ ...p, id: `${idx + 1}` }))]. *)
Definition renumber (l : list ControlPoint) : list ControlPoint :=
  map (fun '(idx, p) => setId p (showNat (idx + 1))) (indexed l).

(** The parameter of a second run on the result [r] of a first run on [p]:
    the returned points, with the sides of the anchors of [p]. *)
Definition feedBack (p : OptimizePointsParams) (r : OptimizedPoints)
    : OptimizePointsParams :=
  {| edgePoints := outEdgePoints r;
     source := {| point := outSource r; position := position (source p) |};
     target := {| point := outTarget r; position := position (target p) |};
     sourceOffset := outSourceOffset r;
     targetOffset := outTargetOffset r |}.

(** ** Collinearity reduction *)

(** A path along the line [y = 0] that overshoots to [x = 7], rests there and
    comes back to [x = 0]. *)
Definition backtrackingPath : list ControlPoint :=
  [pt "a" 6 0; pt "b" 5 0; pt "c" 7 0; pt "d" 7 0; pt "e" 0 0].

(** The interior points the loop pushes when it runs over [rest], whose
    first point has [prev] before it in the array. *)
Fixpoint keptInterior (prev : ControlPoint) (rest : list ControlPoint)
    : list ControlPoint :=
  match rest with
  | p :: ((next :: _) as tl) =>
      if negb (isInLine p prev next) then p :: keptInterior p tl
      else keptInterior p tl
  | _ => []
  end.

(** No two consecutive points of the array have the same coordinates. *)
Fixpoint noConsecutiveRepeat (l : list ControlPoint) : bool :=
  match l with
  | a :: ((b :: _) as tl) => negb (isEqualPoint a b) && noConsecutiveRepeat tl
  | _ => true
  end.

(** No point of the array lies on the segment between the point before it
    and the point after it. *)
Fixpoint noCollinearInterior (l : list ControlPoint) : bool :=
  match l with
  | a :: ((b :: c :: _) as tl) => negb (isInLine b a c) && noCollinearInterior tl
  | _ => true
  end.

(** The four ways to go from a point to a different point along an axis
    (y grows downwards). *)
Inductive Heading : Type := East | West | South | North.

(** Going from [a] to [b] is going in the direction [d]. *)
Definition heads (d : Heading) (a b : ControlPoint) : Prop :=
  match d with
  | East => y a == y b /\ x a < x b
  | West => y a == y b /\ x b < x a
  | South => x a == x b /\ y a < y b
  | North => x a == x b /\ y b < y a
  end.

(** The state of the loop between two pushes: [k] is the point pushed last,
    [prev] the point before [p], the point the loop looks at next, and
    [leaves] holds the heading from [k] to the point after it.  Either the
    loop has just pushed [k], or every point after [k] up to [prev] was
    dropped and the path runs straight from [k] through [prev] to [p]. *)
Definition straightRun (k prev p : ControlPoint) (leaves : Heading -> Prop) : Prop :=
  (prev = k /\ forall d, leaves d <-> heads d k p)
  \/ (exists d, leaves d /\ heads d k prev /\ heads d prev p).

(** [k] was pushed after [u]: it is not at the coordinates of [u], and the
    path does not leave [k] with the heading it has from [u] to [k]. *)
Definition turnsAt (u : option ControlPoint) (k : ControlPoint)
    (leaves : Heading -> Prop) : Prop :=
  match u with
  | None => True
  | Some u0 =>
      isEqualPoint u0 k = false /\ forall d, heads d u0 k -> ~ leaves d
  end.

(** [l], with [u] in front when there is one. *)
Definition consOption (u : option ControlPoint) (l : list ControlPoint)
    : list ControlPoint :=
  match u with Some u0 => u0 :: l | None => l end.

(** ** Rects and drags *)

(** The test in the words of the specification: the centers of the rects
    are closer than half the sum of the widths on x and than half the sum of
    the heights on y. *)
Definition isRectOverLapping_asSpecified (rect1 rect2 : NodeRect) : bool :=
  let centerX r := Rect.x r + Rect.width r / 2 in
  let centerY r := Rect.y r + Rect.height r / 2 in
  Qltb (Qabs (centerX rect1 - centerX rect2))
       ((Rect.width rect1 + Rect.width rect2) / 2)
  && Qltb (Qabs (centerY rect1 - centerY rect2))
          ((Rect.height rect1 + Rect.height rect2) / 2).

(** The identity viewport: screen and flow coordinates coincide. *)
Definition identityViewport (position : XY.t) : XY.t := position.

(** ** Rects, segments and lists in the further properties *)

(** Two records of sides with the same numbers. *)
Definition sameSides (s1 s2 : RectSides) : Prop :=
  top s1 == top s2 /\ right s1 == right s2
  /\ bottom s1 == bottom s2 /\ left s1 == left s2.

(** [p] is between the sides, bounds included. *)
Definition insideSides (s : RectSides) (p : ControlPoint) : Prop :=
  left s <= x p <= right s /\ top s <= y p <= bottom s.

(** [l1] is [l2] with some elements left out. *)
Inductive Subsequence {A : Type} : list A -> list A -> Prop :=
| Subsequence_nil : Subsequence [] []
| Subsequence_drop (a : A) (l1 l2 : list A) :
    Subsequence l1 l2 -> Subsequence l1 (a :: l2)
| Subsequence_keep (a : A) (l1 l2 : list A) :
    Subsequence l1 l2 -> Subsequence (a :: l1) (a :: l2).

(** No two points of the list have the same coordinates. *)
Definition distinctCoordinates (l : list ControlPoint) : Prop :=
  ForallOrdPairs (fun a b => isEqualPoint a b = false) l.

(** * Properties *)

(** ** Comparisons *)

Lemma Qltb_lt (a b : Q) : Qltb a b = true <-> a < b.
Proof.
  unfold Qltb. rewrite negb_true_iff.
  split; intros H.
  - apply Qnot_le_lt. intros Hle. apply Qle_bool_iff in Hle. congruence.
  - destruct (Qle_bool b a) eqn:E; [|reflexivity].
    apply Qle_bool_iff in E. exfalso. exact (Qlt_not_le _ _ H E).
Qed.

Lemma Qltb_ge (a b : Q) : Qltb a b = false <-> b <= a.
Proof.
  unfold Qltb. rewrite negb_false_iff. apply Qle_bool_iff.
Qed.

Lemma Qgeb_ge (a b : Q) : Qgeb a b = true <-> b <= a.
Proof. unfold Qgeb. apply Qle_bool_iff. Qed.

Lemma floor_inject_Z (z : Z) : floor (inject_Z z) = inject_Z z.
Proof. unfold floor. now rewrite Qfloor_Z. Qed.

Lemma floor_floor (v : Q) : floor (floor v) = floor v.
Proof. unfold floor at 2 3. apply floor_inject_Z. Qed.

(** ** Arrays *)

Lemma lastOf_snoc {A : Type} (l : list A) (z : A) : lastOf (l ++ [z]) = Some z.
Proof.
  unfold lastOf. rewrite length_app. simpl.
  replace (length l + 1 - 1)%nat with (length l) by lia.
  rewrite nth_error_app2 by lia. now rewrite Nat.sub_diag.
Qed.

Lemma pop_snoc {A : Type} (l : list A) (z : A) : pop (l ++ [z]) = (Some z, l).
Proof.
  unfold pop. f_equal; [apply lastOf_snoc | apply removelast_last].
Qed.

(** ** Coordinate merging: the table of representatives *)

Lemma mergeFrom_cons t pos point rest :
  mergeFrom t pos (point :: rest)
  = mergeOne t pos point :: mergeFrom t (tableAfter t pos [point]) rest.
Proof.
  unfold mergeOne. simpl.
  destruct (findPosition t pos AxisX (x point)) as [px pos1]. simpl.
  destruct (findPosition t pos1 AxisY (y point)) as [py pos2]. reflexivity.
Qed.

Lemma tableAfter_cons t pos point rest :
  tableAfter t pos (point :: rest) = tableAfter t (tableAfter t pos [point]) rest.
Proof. reflexivity. Qed.

Lemma tableAfter_app t pos l1 l2 :
  tableAfter t pos (l1 ++ l2) = tableAfter t (tableAfter t pos l1) l2.
Proof.
  revert pos. induction l1 as [|a l1 IH]; intros pos; [reflexivity|].
  simpl. apply IH.
Qed.

Lemma mergeFrom_app t pos l1 l2 :
  mergeFrom t pos (l1 ++ l2)
  = mergeFrom t pos l1 ++ mergeFrom t (tableAfter t pos l1) l2.
Proof.
  revert pos. induction l1 as [|a l1 IH]; intros pos; [reflexivity|].
  rewrite <- app_comm_cons, !mergeFrom_cons, IH, <- app_comm_cons.
  now rewrite (tableAfter_cons t pos a l1).
Qed.

Lemma length_mergeFrom t pos points :
  length (mergeFrom t pos points) = length points.
Proof.
  revert pos. induction points as [|a l IH]; intros pos; [reflexivity|].
  rewrite mergeFrom_cons. simpl. now rewrite IH.
Qed.

(** The two outcomes of [findPosition]: an earlier representative within the
    threshold, or the floored value itself, which then joins the table. *)
Lemma findPosition_cases t pos axis v :
  let r := findPosition t pos axis v in
  (In (fst r) (positionsOf pos axis)
   /\ Qltb (Qabs (floor v - fst r)) t = true
   /\ snd r = pos)
  \/ (fst r = floor v
      /\ snd r = pushPosition pos axis (floor v)
      /\ forall e, In e (positionsOf pos axis) ->
                   Qltb (Qabs (floor v - e)) t = false).
Proof.
  unfold findPosition.
  destruct (find _ (positionsOf pos axis)) as [p|] eqn:E; simpl.
  - left. apply find_some in E. tauto.
  - right. repeat split. intros e He. exact (find_none _ _ E e He).
Qed.

Lemma positionsOf_push pos axis v axis' :
  positionsOf (pushPosition pos axis v) axis'
  = if match axis, axis' with AxisX, AxisX | AxisY, AxisY => true | _, _ => false end
    then positionsOf pos axis' ++ [v] else positionsOf pos axis'.
Proof. destruct axis, axis'; reflexivity. Qed.

Lemma positionsOf_push_same pos axis v :
  positionsOf (pushPosition pos axis v) axis = positionsOf pos axis ++ [v].
Proof. now destruct axis. Qed.

(** A property of the numbers in the table that the floored inputs have is a
    property of every output coordinate. *)
Lemma findPosition_preserves (P : Axis -> Q -> Prop) t pos axis v :
  (forall ax e, In e (positionsOf pos ax) -> P ax e) ->
  P axis (floor v) ->
  P axis (fst (findPosition t pos axis v))
  /\ forall ax e, In e (positionsOf (snd (findPosition t pos axis v)) ax) -> P ax e.
Proof.
  intros Hpos Hv.
  destruct (findPosition_cases t pos axis v) as [(Hin & _ & Hs)|(Hf & Hs & _)].
  - rewrite Hs. split; auto.
  - rewrite Hf, Hs. split; auto.
    intros ax e. rewrite positionsOf_push.
    destruct axis, ax; try apply Hpos;
      (rewrite in_app_iff; intros [H|[<-|[]]]; auto).
Qed.

Lemma mergeFrom_preserves (P : Axis -> Q -> Prop) t pos points :
  (forall ax e, In e (positionsOf pos ax) -> P ax e) ->
  (forall p, In p points -> P AxisX (floor (x p)) /\ P AxisY (floor (y p))) ->
  Forall2 (fun p q => id q = id p /\ P AxisX (x q) /\ P AxisY (y q))
          points (mergeFrom t pos points)
  /\ forall ax e, In e (positionsOf (tableAfter t pos points) ax) -> P ax e.
Proof.
  revert pos. induction points as [|a l IH]; intros pos Hpos Hpts.
  - split; [constructor | exact Hpos].
  - rewrite mergeFrom_cons, (tableAfter_cons t pos a l).
    destruct (Hpts a (or_introl eq_refl)) as [Hax Hay].
    destruct (findPosition_preserves P t pos AxisX (x a) Hpos Hax) as [Hx Hpos1].
    destruct (findPosition_preserves P t _ AxisY (y a) Hpos1 Hay) as [Hy Hpos2].
    destruct (IH (tableAfter t pos [a])) as [HF Ht].
    + exact Hpos2.
    + intros p Hp. apply Hpts. now right.
    + split; [|exact Ht].
      constructor; [|exact HF]. unfold mergeOne. simpl. auto.
Qed.

(** C9 (frame property of coordinate merging).  For every input list and
    every threshold, [mergeClosePoints] returns a list of the same length in
    the same order; each output point has the id of the input point at its
    place, and each of its coordinates is the floor of the coordinate some
    input point has on the same axis. *)
Theorem mergeClosePoints_frame (points : list ControlPoint) (threshold : Q) :
  length (mergeClosePoints points threshold) = length points
  /\ Forall2 (fun p q =>
                id q = id p
                /\ (exists p', In p' points /\ x q = floor (x p'))
                /\ (exists p', In p' points /\ y q = floor (y p')))
             points (mergeClosePoints points threshold).
Proof.
  unfold mergeClosePoints. split; [apply length_mergeFrom|].
  pose (P := fun (ax : Axis) (e : Q) =>
               exists p', In p' points
                          /\ e = floor (match ax with AxisX => x p' | AxisY => y p' end)).
  destruct (mergeFrom_preserves P threshold {| onX := []; onY := [] |} points)
    as [HF _].
  - intros [] e [].
  - intros p Hp. split; exists p; auto.
  - exact HF.
Qed.

(** ** Coordinate merging: representatives stay apart *)

Lemma findPosition_other_axis t pos axis v axis' :
  axis <> axis' ->
  positionsOf (snd (findPosition t pos axis v)) axis' = positionsOf pos axis'.
Proof.
  intros Hne.
  destruct (findPosition_cases t pos axis v) as [(_ & _ & ->)|(_ & -> & _)];
    [reflexivity|].
  rewrite positionsOf_push. destruct axis, axis'; congruence.
Qed.

Lemma findPosition_in_table t pos axis v :
  In (fst (findPosition t pos axis v))
     (positionsOf (snd (findPosition t pos axis v)) axis).
Proof.
  destruct (findPosition_cases t pos axis v) as [(H & _ & ->)|(-> & -> & _)];
    [exact H|].
  rewrite positionsOf_push. destruct axis; apply in_or_app; right; now left.
Qed.

Lemma findPosition_grows t pos axis v axis' :
  within pos (snd (findPosition t pos axis v)) axis'.
Proof.
  intros e He.
  destruct (findPosition_cases t pos axis v) as [(_ & _ & ->)|(_ & -> & _)];
    [exact He|].
  rewrite positionsOf_push.
  destruct axis, axis'; try exact He; apply in_or_app; now left.
Qed.

Lemma findPosition_settled t pos axis v :
  Settled t pos -> Settled t (snd (findPosition t pos axis v)).
Proof.
  intros [Hint Hsep].
  destruct (findPosition_cases t pos axis v) as [(_ & _ & ->)|(_ & -> & Hfar)];
    [now split|].
  split.
  - intros ax a. rewrite positionsOf_push.
    destruct axis, ax; try apply Hint;
      (rewrite in_app_iff; intros [H|[<-|[]]];
       [exact (Hint _ _ H) | apply floor_floor]).
  - intros ax a b. rewrite positionsOf_push.
    destruct axis, ax; try apply Hsep;
      (rewrite !in_app_iff; intros [Ha|[<-|[]]] [Hb|[<-|[]]] Hab;
       [ exact (Hsep _ _ _ Ha Hb Hab)
       | rewrite Qabs_Qminus, (Hfar _ Ha) in Hab; discriminate
       | rewrite (Hfar _ Hb) in Hab; discriminate
       | reflexivity ]).
Qed.

Lemma tableAfter_settled t pos points :
  Settled t pos -> Settled t (tableAfter t pos points).
Proof.
  revert pos. induction points as [|a l IH]; intros pos H; [exact H|].
  simpl. apply IH. now do 2 apply findPosition_settled.
Qed.

Lemma tableAfter_grows t pos points axis :
  within pos (tableAfter t pos points) axis.
Proof.
  revert pos. induction points as [|a l IH]; intros pos e He; [exact He|].
  simpl. apply IH. now do 2 apply findPosition_grows.
Qed.

Lemma mergeOne_in_table t pos point :
  In (x (mergeOne t pos point)) (onX (tableAfter t pos [point]))
  /\ In (y (mergeOne t pos point)) (onY (tableAfter t pos [point])).
Proof.
  unfold mergeOne. simpl. split.
  - apply (findPosition_grows _ _ AxisY _ AxisX).
    apply (findPosition_in_table t pos AxisX).
  - apply (findPosition_in_table t _ AxisY).
Qed.

(** Every coordinate [mergeFrom] returns is in the table it ends with. *)
Lemma mergeFrom_in_table t pos points q :
  In q (mergeFrom t pos points) ->
  In (x q) (onX (tableAfter t pos points))
  /\ In (y q) (onY (tableAfter t pos points)).
Proof.
  revert pos. induction points as [|a l IH]; intros pos; [intros []|].
  rewrite mergeFrom_cons, (tableAfter_cons t pos a l). intros [<-|Hq].
  - destruct (mergeOne_in_table t pos a) as [Hx Hy]. split.
    + exact (tableAfter_grows t _ l AxisX _ Hx).
    + exact (tableAfter_grows t _ l AxisY _ Hy).
  - now apply IH.
Qed.

(** A representative is its own representative, whatever part of the settled
    table has been rebuilt so far. *)
Lemma findPosition_fixed t R pos axis v :
  Settled t R -> within pos R axis -> In v (positionsOf R axis) ->
  fst (findPosition t pos axis v) = v
  /\ within (snd (findPosition t pos axis v)) R axis.
Proof.
  intros [Hint Hsep] Hsub Hv.
  pose proof (Hint _ _ Hv) as Hfl.
  destruct (findPosition_cases t pos axis v) as [(Hin & Hnear & ->)|(-> & -> & _)].
  - split; [|exact Hsub].
    rewrite Hfl in Hnear. symmetry. exact (Hsep _ _ _ Hv (Hsub _ Hin) Hnear).
  - split; [exact Hfl|].
    intros e. rewrite positionsOf_push, Hfl.
    destruct axis; (rewrite in_app_iff; intros [H|[<-|[]]]; auto).
Qed.

Lemma mergeOne_fixed t R pos q :
  Settled t R -> within pos R AxisX -> within pos R AxisY ->
  In (x q) (onX R) -> In (y q) (onY R) ->
  mergeOne t pos q = q
  /\ within (tableAfter t pos [q]) R AxisX
  /\ within (tableAfter t pos [q]) R AxisY.
Proof.
  intros HR HsubX HsubY Hx Hy.
  destruct (findPosition_fixed t R pos AxisX (x q) HR HsubX Hx) as [Ex HX1].
  assert (HY1 : within (snd (findPosition t pos AxisX (x q))) R AxisY).
  { intros e. rewrite findPosition_other_axis by discriminate. apply HsubY. }
  destruct (findPosition_fixed t R _ AxisY (y q) HR HY1 Hy) as [Ey HY2].
  unfold mergeOne. simpl. rewrite Ex, Ey. repeat split.
  - now destruct q.
  - intros e. rewrite findPosition_other_axis by discriminate. apply HX1.
  - exact HY2.
Qed.

(** Points made of representatives pass through the merge unchanged. *)
Lemma mergeFrom_fixed t R pos points :
  Settled t R -> within pos R AxisX -> within pos R AxisY ->
  (forall q, In q points -> In (x q) (onX R) /\ In (y q) (onY R)) ->
  mergeFrom t pos points = points
  /\ within (tableAfter t pos points) R AxisX
  /\ within (tableAfter t pos points) R AxisY.
Proof.
  intros HR. revert pos.
  induction points as [|a l IH]; intros pos HsubX HsubY Hpts; [now repeat split|].
  destruct (Hpts a (or_introl eq_refl)) as [Hx Hy].
  destruct (mergeOne_fixed t R pos a HR HsubX HsubY Hx Hy) as (E & HX & HY).
  rewrite mergeFrom_cons, (tableAfter_cons t pos a l), E.
  destruct (IH _ HX HY) as (E' & HX' & HY').
  - intros q Hq. apply Hpts. now right.
  - rewrite E'. now repeat split.
Qed.

(** ** Coordinate merging: the threshold *)

(** C4, the claim as stated, fails both ways.  With x = 0, 3, 6 in this
    order the points at 3 and 6 are 3 apart and get 0 and 6; with x = 3, 0, 6
    the points at 0 and 6 are 6 apart and both get 3. *)
Lemma mergeClosePoints_not_monotone :
  ~ collapsesWithinThreshold [pt "a" 0 0; pt "b" 3 0; pt "c" 6 0]
  /\ ~ separatesBeyondThreshold [pt "a" 3 0; pt "b" 0 0; pt "c" 6 0].
Proof.
  split; intros H.
  - specialize (H AxisX 1%nat 2%nat _ _ _ _ eq_refl eq_refl eq_refl eq_refl).
    assert (Hnear : Qabs (coordinate AxisX (pt "b" 3 0)
                          - coordinate AxisX (pt "c" 6 0)) < defaultThreshold)
      by reflexivity.
    apply H in Hnear. discriminate Hnear.
  - specialize (H AxisX 1%nat 2%nat _ _ _ _ eq_refl eq_refl eq_refl eq_refl).
    apply H; reflexivity.
Qed.

Lemma find_app_some {A : Type} (f : A -> bool) (l l' : list A) (a : A) :
  find f l = Some a -> find f (l ++ l') = Some a.
Proof.
  induction l as [|b l IH]; simpl; [discriminate|].
  destruct (f b); auto.
Qed.

Lemma find_app_none {A : Type} (f : A -> bool) (l l' : list A) :
  find f l = None -> find f (l ++ l') = find f l'.
Proof.
  induction l as [|b l IH]; simpl; [reflexivity|].
  destruct (f b); [discriminate | auto].
Qed.

Lemma Qabs_self (v : Q) : Qabs (v - v) == 0.
Proof.
  assert (E : v - v == 0) by ring.
  rewrite E. reflexivity.
Qed.

Lemma near_self (t v : Q) : 0 < t -> Qltb (Qabs (v - v)) t = true.
Proof. intros Ht. apply Qltb_lt. now rewrite Qabs_self. Qed.

(** Tables only grow at the end. *)
Lemma findPosition_extends t pos axis v axis' :
  exists more,
    positionsOf (snd (findPosition t pos axis v)) axis'
    = positionsOf pos axis' ++ more.
Proof.
  destruct (findPosition_cases t pos axis v) as [(_ & _ & ->)|(_ & -> & _)].
  - exists []. now rewrite app_nil_r.
  - rewrite positionsOf_push.
    destruct axis, axis'; (now exists [floor v]) || (exists []; now rewrite app_nil_r).
Qed.

Lemma tableAfter_extends t pos points axis :
  exists more,
    positionsOf (tableAfter t pos points) axis = positionsOf pos axis ++ more.
Proof.
  revert pos. induction points as [|a l IH]; intros pos.
  - exists []. simpl. now rewrite app_nil_r.
  - simpl. destruct (IH (snd (findPosition t
                               (snd (findPosition t pos AxisX (x a))) AxisY (y a))))
      as [m3 ->].
    destruct (findPosition_extends t (snd (findPosition t pos AxisX (x a)))
                AxisY (y a) axis) as [m2 ->].
    destruct (findPosition_extends t pos AxisX (x a) axis) as [m1 ->].
    exists (m1 ++ m2 ++ m3). now rewrite !app_assoc.
Qed.

(** The representative of [v] is the first number within the threshold of
    the floor of [v], in the table right after the call and in every table
    that extends it. *)
Lemma findPosition_first_match t pos axis v more :
  0 < t ->
  find (fun e => Qltb (Qabs (floor v - e)) t)
       (positionsOf (snd (findPosition t pos axis v)) axis ++ more)
  = Some (fst (findPosition t pos axis v)).
Proof.
  intros Ht. unfold findPosition.
  destruct (find _ (positionsOf pos axis)) as [p|] eqn:E; cbn [fst snd].
  - now apply find_app_some.
  - rewrite positionsOf_push_same.
    rewrite <- app_assoc, (find_app_none _ _ _ E). cbn [app find].
    now rewrite near_self.
Qed.

Lemma mergeFrom_first_match t pos points :
  0 < t ->
  Forall2 (fun p q =>
             forall axis,
               find (fun e => Qltb (Qabs (floor (coordinate axis p) - e)) t)
                    (positionsOf (tableAfter t pos points) axis)
               = Some (coordinate axis q))
          points (mergeFrom t pos points).
Proof.
  intros Ht. revert pos. induction points as [|a l IH]; intros pos;
    [constructor|].
  rewrite mergeFrom_cons, (tableAfter_cons t pos a l).
  constructor; [|apply IH].
  intros axis.
  destruct (tableAfter_extends t (tableAfter t pos [a]) l axis) as [more ->].
  unfold mergeOne. simpl tableAfter. destruct axis; cbn [coordinate x y].
  - rewrite findPosition_other_axis by discriminate.
    now apply findPosition_first_match.
  - now apply findPosition_first_match.
Qed.

Lemma Forall2_nth_error_both {A B : Type} (R : A -> B -> Prop)
    (l : list A) (l' : list B) (i : nat) (a : A) (b : B) :
  Forall2 R l l' -> nth_error l i = Some a -> nth_error l' i = Some b -> R a b.
Proof.
  intros H. revert i. induction H as [|a0 b0 l l' Hab _ IH]; intros [|i];
    simpl; try discriminate.
  - congruence.
  - apply IH.
Qed.

Lemma defaultThreshold_pos : 0 < defaultThreshold.
Proof. reflexivity. Qed.

(** C4 (merge threshold), amended.  Under the default threshold 4 every
    point gets, on each axis, the first representative of the table of the
    run that is less than 4 away from the floor of its coordinate (the table
    lists the representatives in the order they were created).  So, for two
    input points and an axis: the representative of a point is less than 4
    away from the floor of its coordinate; points with the same floored
    coordinate get the same representative; points that get the same
    representative have floored coordinates less than 8 apart; and two
    different representatives are at least 4 apart. *)
Theorem mergeClosePoints_threshold (points : list ControlPoint) (axis : Axis)
    (i j : nat) (p q p' q' : ControlPoint) :
  nth_error points i = Some p ->
  nth_error points j = Some q ->
  nth_error (mergeClosePoints points defaultThreshold) i = Some p' ->
  nth_error (mergeClosePoints points defaultThreshold) j = Some q' ->
  find (fun e => Qltb (Qabs (floor (coordinate axis p) - e)) defaultThreshold)
       (positionsOf (tableAfter defaultThreshold emptyTable points) axis)
  = Some (coordinate axis p')
  /\ Qabs (floor (coordinate axis p) - coordinate axis p') < defaultThreshold
  /\ (floor (coordinate axis p) = floor (coordinate axis q) ->
      coordinate axis p' = coordinate axis q')
  /\ (coordinate axis p' == coordinate axis q' ->
      Qabs (floor (coordinate axis p) - floor (coordinate axis q))
      < 2 * defaultThreshold)
  /\ (coordinate axis p' <> coordinate axis q' ->
      defaultThreshold <= Qabs (coordinate axis p' - coordinate axis q')).
Proof.
  intros Hp Hq Hp' Hq'.
  pose proof (mergeFrom_first_match defaultThreshold emptyTable points
                defaultThreshold_pos) as HF.
  pose proof (Forall2_nth_error_both _ _ _ _ _ _ HF Hp Hp' axis) as Fp.
  pose proof (Forall2_nth_error_both _ _ _ _ _ _ HF Hq Hq' axis) as Fq.
  cbv beta in Fp, Fq.
  destruct (find_some _ _ Fp) as [Inp Np].
  destruct (find_some _ _ Fq) as [Inq Nq].
  apply Qltb_lt in Np, Nq.
  repeat split.
  - exact Fp.
  - exact Np.
  - intros E. rewrite E in Fp. congruence.
  - intros E.
    apply Qabs_Qlt_condition in Np, Nq. apply Qabs_Qlt_condition.
    unfold defaultThreshold in *. lra.
  - intros Hne. apply Qltb_ge.
    destruct (Qltb (Qabs (coordinate axis p' - coordinate axis q'))
                   defaultThreshold) eqn:E; [|reflexivity].
    exfalso. apply Hne.
    assert (HR : Settled defaultThreshold
                         (tableAfter defaultThreshold emptyTable points)).
    { apply tableAfter_settled. split; [intros [] a [] | intros [] a b []]. }
    exact (proj2 HR axis _ _ Inp Inq E).
Qed.

(** The points at x = 0, 3, 6 and 7/2: the second and the fourth have the
    same floor and the same representative 0; the first and the third have
    the representatives 0 and 6. *)
Lemma mergeClosePoints_threshold_witness :
  (find (fun e => Qltb (Qabs (floor 3 - e)) defaultThreshold) [0; 6] = Some 0
   /\ Qabs (floor 3 - 0) < defaultThreshold
   /\ (floor 3 = floor (7 # 2) -> 0 = 0)
   /\ (0 == 0 -> Qabs (floor 3 - floor (7 # 2)) < 2 * defaultThreshold)
   /\ (0 <> 0 -> defaultThreshold <= Qabs (0 - 0)))
  /\ defaultThreshold <= Qabs (0 - 6).
Proof.
  pose (points := [pt "a" 0 0; pt "b" 3 0; pt "c" 6 0;
                   mkControlPoint "d" (7 # 2) 0]).
  split.
  - exact (mergeClosePoints_threshold points AxisX 1 3
             (pt "b" 3 0) (mkControlPoint "d" (7 # 2) 0)
             (pt "b" 0 0) (pt "d" 0 0) eq_refl eq_refl eq_refl eq_refl).
  - apply (proj2 (mergeClosePoints_threshold points AxisX 0 2
             (pt "a" 0 0) (pt "c" 6 0) (pt "a" 0 0) (pt "c" 6 0)
             eq_refl eq_refl eq_refl eq_refl)).
    discriminate.
Defined.

(** ** Duplicate removal: the loop, by recursion on the array *)

Lemma removeRepeat_fold (len : nat) (z : ControlPoint) (l : list ControlPoint) :
  forall (k : nat) (seen : list Key) (acc : list ControlPoint),
    (k + length l = len - 1)%nat ->
    snd (fold_left (removeRepeatStep len)
                   (combine (seq k (length (l ++ [z]))) (l ++ [z])) (seen, acc))
    = acc ++ dedupFrom seen l ++ [z].
Proof.
  induction l as [|p l IH]; intros k seen acc Hk; simpl in *.
  - replace (k =? len - 1)%nat with true by (symmetry; apply Nat.eqb_eq; lia).
    reflexivity.
  - replace (k =? len - 1)%nat with false by (symmetry; apply Nat.eqb_neq; lia).
    unfold setAdd.
    destruct (setHas seen (keyOf p)); simpl.
    + apply IH. lia.
    + rewrite IH by lia. now rewrite <- app_assoc.
Qed.

Lemma removeRepeatPoints_snoc (l : list ControlPoint) (z : ControlPoint) :
  removeRepeatPoints (l ++ [z]) = Some (dedupFrom [keyOf z] l ++ [z]).
Proof.
  unfold removeRepeatPoints.
  change (nth_error (l ++ [z]) (length (l ++ [z]) - 1)) with (lastOf (l ++ [z])).
  rewrite lastOf_snoc. unfold indexed.
  rewrite (removeRepeat_fold (length (l ++ [z])) z l 0 [keyOf z] []).
  - reflexivity.
  - rewrite length_app. simpl. lia.
Qed.

Lemma removeRepeatPoints_nil : removeRepeatPoints [] = None.
Proof. reflexivity. Qed.

(** ** Duplicate removal: what a second pass finds *)

Lemma key_eqb_refl (k : Key) : key_eqb k k = true.
Proof. unfold key_eqb. now rewrite !Qeq_bool_refl. Qed.

Lemma setHas_app (s1 s2 : list Key) (k : Key) :
  setHas (s1 ++ s2) k = setHas s1 k || setHas s2 k.
Proof. apply existsb_app. Qed.

Lemma setHas_last (s : list Key) (k : Key) : setHas (s ++ [k]) k = true.
Proof. rewrite setHas_app. simpl. rewrite key_eqb_refl. apply orb_true_r. Qed.

Lemma dedupFrom_incl seen l q : In q (dedupFrom seen l) -> In q l.
Proof.
  revert seen. induction l as [|p l IH]; intros seen; simpl; [tauto|].
  destruct (setHas seen (keyOf p)).
  - intros H. right. eapply IH, H.
  - intros [<-|H]; [now left|]. right. eapply IH, H.
Qed.

(** The loop depends on the points through their keys only. *)
Lemma dedupFrom_keys seen l1 l2 :
  map keyOf l1 = map keyOf l2 ->
  map keyOf (dedupFrom seen l1) = map keyOf (dedupFrom seen l2).
Proof.
  revert seen l2. induction l1 as [|p l1 IH]; intros seen [|q l2] H;
    try discriminate; [reflexivity|].
  cbn [map] in H.
  assert (Hk : keyOf p = keyOf q) by congruence.
  assert (Hl : map keyOf l1 = map keyOf l2) by congruence.
  cbn [dedupFrom]. rewrite Hk.
  destruct (setHas seen (keyOf q)); cbn [map]; [|rewrite Hk; f_equal];
    now apply IH.
Qed.

(** What the loop kept, it keeps again. *)
Lemma dedupFrom_idem seen l :
  dedupFrom seen (dedupFrom seen l) = dedupFrom seen l.
Proof.
  revert seen. induction l as [|p l IH]; intros seen; [reflexivity|].
  simpl. destruct (setHas seen (keyOf p)) eqn:E; [apply IH|].
  simpl. rewrite E. f_equal. apply IH.
Qed.

(** A trailing point whose key is in the set already is dropped. *)
Lemma dedupFrom_snoc_seen seen l z :
  setHas seen (keyOf z) = true -> dedupFrom seen (l ++ [z]) = dedupFrom seen l.
Proof.
  revert seen. induction l as [|p l IH]; intros seen Hz; simpl.
  - now rewrite Hz.
  - destruct (setHas seen (keyOf p)); [now apply IH|].
    f_equal. apply IH. rewrite setHas_app, Hz. reflexivity.
Qed.

(** Running the loop over the first point again, then over what it kept,
    then over a copy of the last point, keeps the same points. *)
Lemma dedupFrom_again (a z : ControlPoint) (l : list ControlPoint) :
  let D := dedupFrom [keyOf z] (a :: l) in
  dedupFrom [keyOf z] (a :: D ++ [z]) = D.
Proof.
  intros D. subst D. cbn [dedupFrom].
  destruct (setHas [keyOf z] (keyOf a)) eqn:E.
  - rewrite dedupFrom_snoc_seen by apply (setHas_last []).
    apply dedupFrom_idem.
  - f_equal. rewrite <- (app_comm_cons (dedupFrom _ l) [z] a). cbn [dedupFrom].
    rewrite setHas_last, dedupFrom_snoc_seen.
    + apply dedupFrom_idem.
    + rewrite setHas_app. simpl. now rewrite key_eqb_refl.
Qed.

(** ** Renumbering *)

Lemma renumber_from_keys (k : nat) (l1 l2 : list ControlPoint) :
  map keyOf l1 = map keyOf l2 ->
  map (fun '(idx, p) => setId p (showNat (idx + 1))) (combine (seq k (length l1)) l1)
  = map (fun '(idx, p) => setId p (showNat (idx + 1))) (combine (seq k (length l2)) l2).
Proof.
  revert k l2. induction l1 as [|p l1 IH]; intros k [|q l2] H;
    try discriminate; [reflexivity|].
  cbn [map] in H.
  assert (Hk : keyOf p = keyOf q) by congruence.
  assert (Hl : map keyOf l1 = map keyOf l2) by congruence.
  simpl. f_equal.
  - unfold keyOf in Hk. injection Hk as Hx Hy. unfold setId. now rewrite Hx, Hy.
  - now apply IH.
Qed.

(** The renumbered array depends on the coordinates only. *)
Lemma renumber_keys (l1 l2 : list ControlPoint) :
  map keyOf l1 = map keyOf l2 -> renumber l1 = renumber l2.
Proof. apply renumber_from_keys. Qed.

Lemma keys_renumber_from (k : nat) (l : list ControlPoint) :
  map keyOf
      (map (fun '(idx, p) => setId p (showNat (idx + 1))) (combine (seq k (length l)) l))
  = map keyOf l.
Proof.
  revert k. induction l as [|p l IH]; intros k; [reflexivity|].
  simpl. f_equal. apply IH.
Qed.

Lemma keys_renumber (l : list ControlPoint) :
  map keyOf (renumber l) = map keyOf l.
Proof. apply keys_renumber_from. Qed.

Lemma keyOf_in_map (l : list ControlPoint) (q : ControlPoint) :
  In q l -> In (keyOf q) (map keyOf l).
Proof. apply in_map. Qed.

(** A renumbered point has the coordinates of a point of the array. *)
Lemma renumber_coordinates (l : list ControlPoint) (q : ControlPoint) :
  In q (renumber l) -> exists q0, In q0 l /\ x q = x q0 /\ y q = y q0.
Proof.
  intros Hq. apply keyOf_in_map in Hq. rewrite keys_renumber in Hq.
  apply in_map_iff in Hq. destruct Hq as (q0 & Hk & Hq0).
  exists q0. split; [exact Hq0|]. unfold keyOf in Hk. now injection Hk.
Qed.

(** ** Duplicate removal: which points are kept *)

Lemma key_eqb_sym (k1 k2 : Key) : key_eqb k1 k2 = key_eqb k2 k1.
Proof.
  unfold key_eqb. f_equal; apply eq_true_iff_eq; rewrite !Qeq_bool_iff;
    split; intros H; now symmetry.
Qed.

Lemma key_eqb_trans (k1 k2 k3 : Key) :
  key_eqb k1 k2 = true -> key_eqb k2 k3 = true -> key_eqb k1 k3 = true.
Proof.
  unfold key_eqb. rewrite !andb_true_iff, !Qeq_bool_iff.
  intros [H1 H2] [H3 H4]. split; etransitivity; eauto.
Qed.

(** Membership in the set does not tell equal keys apart. *)
Lemma setHas_key_eqb (s : list Key) (k1 k2 : Key) :
  key_eqb k1 k2 = true -> setHas s k1 = setHas s k2.
Proof.
  intros H. unfold setHas. induction s as [|k s IH]; [reflexivity|].
  simpl. rewrite IH. f_equal.
  apply eq_true_iff_eq. split; intros Hk.
  - apply (key_eqb_trans k2 k1 k); [now rewrite key_eqb_sym | exact Hk].
  - exact (key_eqb_trans k1 k2 k H Hk).
Qed.

Lemma tracks_step seen lastP earlier p :
  tracks seen lastP earlier ->
  tracks (if setHas seen (keyOf p) then seen else seen ++ [keyOf p])
         lastP (earlier ++ [p]).
Proof.
  intros H q. rewrite existsb_app. simpl. rewrite orb_false_r, orb_assoc, <- H.
  change (isEqualPoint q p) with (key_eqb (keyOf q) (keyOf p)).
  destruct (setHas seen (keyOf p)) eqn:E.
  - destruct (key_eqb (keyOf q) (keyOf p)) eqn:Eq; [|now rewrite orb_false_r].
    rewrite (setHas_key_eqb seen _ _ Eq), E. reflexivity.
  - rewrite setHas_app. simpl. now rewrite orb_false_r.
Qed.

Lemma dedupFrom_firstOccurrences seen lastP earlier l :
  tracks seen lastP earlier ->
  dedupFrom seen l = firstOccurrences earlier lastP l.
Proof.
  revert seen earlier. induction l as [|p l IH]; intros seen earlier H;
    [reflexivity|].
  simpl. rewrite <- (H p).
  pose proof (tracks_step seen lastP earlier p H) as H'.
  destruct (setHas seen (keyOf p)); [|f_equal]; now apply IH.
Qed.

Lemma tracks_first (first lastP : ControlPoint) :
  tracks (if setHas [keyOf lastP] (keyOf first) then [keyOf lastP]
          else [keyOf lastP] ++ [keyOf first]) lastP [first].
Proof.
  apply (tracks_step [keyOf lastP] lastP [] first).
  intros p. simpl. reflexivity.
Qed.

(** C3, the claim as stated, fails: of the two points at (0,0) below, b
    and d, the loop keeps b, which has the later point d at its coordinates,
    and drops d, which has no later point at its coordinates. *)
Lemma removeRepeatPoints_keeps_first_occurrence :
  removeRepeatPoints
    [pt "a" 9 9; pt "b" 0 0; pt "c" 1 1; pt "d" 0 0; pt "e" 2 2]
  = Some [pt "a" 9 9; pt "b" 0 0; pt "c" 1 1; pt "e" 2 2]
  /\ removeRepeatPoints_asSpecified
       [pt "a" 9 9; pt "b" 0 0; pt "c" 1 1; pt "d" 0 0; pt "e" 2 2]
     = [pt "a" 9 9; pt "c" 1 1; pt "d" 0 0; pt "e" 2 2]
  /\ removeRepeatPoints
       [pt "a" 9 9; pt "b" 0 0; pt "c" 1 1; pt "d" 0 0; pt "e" 2 2]
     <> Some (removeRepeatPoints_asSpecified
                [pt "a" 9 9; pt "b" 0 0; pt "c" 1 1; pt "d" 0 0; pt "e" 2 2]).
Proof. repeat split. vm_compute. discriminate. Qed.

(** A first point at the coordinates of the last point is dropped. *)
Lemma removeRepeatPoints_drops_first_point :
  removeRepeatPoints [pt "a" 0 0; pt "b" 1 1; pt "c" 0 0]
  = Some [pt "b" 1 1; pt "c" 0 0].
Proof. reflexivity. Qed.

(** C3 (duplicate removal), amended.  For a list of at least two points
    [removeRepeatPoints] keeps the last point, keeps a point between the
    first and the last exactly when its coordinates are neither those of the
    last point nor those of a point before it, and keeps the first point
    when its coordinates are not those of the last point; of a one-point
    list it keeps the point; and on
    [(0,0),(0,0),(50,0),(100,0),(100,0)] it returns
    [(0,0),(50,0),(100,0)]. *)
Theorem removeRepeatPoints_policy :
  (forall (first lastP : ControlPoint) (mid : list ControlPoint),
     exists keepFirst : bool,
       removeRepeatPoints (first :: mid ++ [lastP])
       = Some ((if keepFirst then [first] else [])
               ++ firstOccurrences [first] lastP mid ++ [lastP])
       /\ (isEqualPoint first lastP = false -> keepFirst = true))
  /\ (forall p, removeRepeatPoints [p] = Some [p])
  /\ removeRepeatPoints
       [pt "a" 0 0; pt "b" 0 0; pt "c" 50 0; pt "d" 100 0; pt "e" 100 0]
     = Some [pt "a" 0 0; pt "c" 50 0; pt "e" 100 0].
Proof.
  split; [|split; reflexivity].
  intros first lastP mid.
  exists (negb (setHas [keyOf lastP] (keyOf first))).
  change (first :: mid ++ [lastP]) with ((first :: mid) ++ [lastP]).
  rewrite removeRepeatPoints_snoc. cbn [dedupFrom].
  pose proof (tracks_first first lastP) as Ht.
  destruct (setHas [keyOf lastP] (keyOf first)) eqn:E; cbn [negb].
  - rewrite (dedupFrom_firstOccurrences _ lastP [first] mid Ht).
    split; [reflexivity|].
    intros Hne. simpl in E. rewrite orb_false_r in E.
    unfold isEqualPoint in Hne. unfold key_eqb, keyOf in E. simpl in E.
    congruence.
  - rewrite (dedupFrom_firstOccurrences _ lastP [first] mid Ht).
    split; reflexivity.
Qed.

Lemma removeRepeatPoints_policy_witness :
  exists keepFirst : bool,
    removeRepeatPoints (pt "a" 0 0 :: [pt "b" 1 1; pt "c" 0 0] ++ [pt "d" 2 2])
    = Some ((if keepFirst then [pt "a" 0 0] else [])
            ++ firstOccurrences [pt "a" 0 0] (pt "d" 2 2)
                 [pt "b" 1 1; pt "c" 0 0] ++ [pt "d" 2 2])
    /\ keepFirst = true.
Proof.
  destruct (proj1 removeRepeatPoints_policy (pt "a" 0 0) (pt "d" 2 2)
              [pt "b" 1 1; pt "c" 0 0]) as (keepFirst & Hout & Hfirst).
  exists keepFirst. split; [exact Hout|]. apply Hfirst. reflexivity.
Defined.

(** ** The optimizer, unfolded *)

(** A run: the anchor of a Right handle at (1/2, 3/2), the anchor of a Top
    handle at (41, 50), offsets and two edge points.  Merging snaps y = 3/2
    and y = 3 to 1, y = 50 to 51 and x = 41 to 40; the correction restores
    x = 1/2 of the source and y = 50 of the target. *)
Example optimizeInputPoints_run :
  optimizeInputPoints
    {| edgePoints := [pt "e1" 20 3; pt "e2" 20 51];
       source := {| point := mkControlPoint "s" (1 # 2) (3 # 2); position := Right |};
       target := {| point := pt "t" 41 50; position := Top |};
       sourceOffset := pt "so" 10 1;
       targetOffset := pt "to" 40 50 |}
  = Some {| outSource := mkControlPoint "s" (1 # 2) 1;
            outTarget := pt "t" 40 50;
            outSourceOffset := pt "so" 10 1;
            outTargetOffset := pt "to" 40 51;
            outEdgePoints :=
              [pt "1" 10 1; pt "2" 20 1; pt "3" 20 51; pt "4" 40 51] |}.
Proof. reflexivity. Qed.

Lemma optimizeInputPoints_of_merged (p : OptimizePointsParams)
    (s' so' to' t' : ControlPoint) (E' : list ControlPoint) :
  mergeClosePoints (mergedInput p) defaultThreshold
  = s' :: so' :: E' ++ [to'; t'] ->
  optimizeInputPoints p
  = Some {| outSource := corrected (source p) s';
            outTarget := corrected (target p) t';
            outSourceOffset := so';
            outTargetOffset := to';
            outEdgePoints :=
              renumber (dedupFrom [keyOf to'] (so' :: E') ++ [to']) |}.
Proof.
  intros HM. unfold optimizeInputPoints.
  change ([point (source p); sourceOffset p] ++ edgePoints p
          ++ [targetOffset p; point (target p)]) with (mergedInput p).
  rewrite HM. unfold shift. cbn [hd_error tl].
  replace (so' :: E' ++ [to'; t']) with ((so' :: E' ++ [to']) ++ [t'])
    by (simpl; now rewrite <- app_assoc).
  rewrite pop_snoc. cbn [bind nth_error].
  change (nth_error (so' :: E' ++ [to']) (length (so' :: E' ++ [to']) - 1))
    with (lastOf ((so' :: E') ++ [to'])).
  rewrite lastOf_snoc. cbn [bind].
  change (so' :: E' ++ [to']) with ((so' :: E') ++ [to']).
  rewrite removeRepeatPoints_snoc. cbn [bind]. reflexivity.
Qed.

(** The merged array, element by element. *)
Lemma mergeClosePoints_mergedInput (p : OptimizePointsParams) (t : Q) :
  let pos0 := {| onX := []; onY := [] |} in
  let pos1 := tableAfter t pos0 [point (source p)] in
  let pos2 := tableAfter t pos1 [sourceOffset p] in
  let pos3 := tableAfter t pos2 (edgePoints p) in
  let pos4 := tableAfter t pos3 [targetOffset p] in
  mergeClosePoints (mergedInput p) t
  = mergeOne t pos0 (source p) :: mergeOne t pos1 (sourceOffset p)
    :: mergeFrom t pos2 (edgePoints p)
    ++ [mergeOne t pos3 (targetOffset p); mergeOne t pos4 (target p)].
Proof.
  intros. unfold mergeClosePoints, mergedInput.
  cbn [app]. rewrite !mergeFrom_cons, mergeFrom_app, !mergeFrom_cons.
  reflexivity.
Qed.

(** The optimizer never raises. *)
Lemma optimizeInputPoints_total (p : OptimizePointsParams) :
  exists r, optimizeInputPoints p = Some r.
Proof.
  eexists. eapply optimizeInputPoints_of_merged.
  apply mergeClosePoints_mergedInput.
Qed.

(** C1 (endpoint fidelity).  For every input, [optimizeInputPoints] returns,
    and the source point it returns has the x of the source anchor when the
    anchor sits on a Left or Right side and the y of the source anchor when
    it sits on a Top or Bottom side, whatever merging made of that
    coordinate; the same holds for the target point and the target anchor. *)
Theorem optimizeInputPoints_endpoint_fidelity (p : OptimizePointsParams) :
  exists r, optimizeInputPoints p = Some r
    /\ match position (source p) with
       | Left | Right => x (outSource r) = x (source p)
       | Top | Bottom => y (outSource r) = y (source p)
       end
    /\ match position (target p) with
       | Left | Right => x (outTarget r) = x (target p)
       | Top | Bottom => y (outTarget r) = y (target p)
       end.
Proof.
  eexists. split.
  - eapply optimizeInputPoints_of_merged. apply mergeClosePoints_mergedInput.
  - cbn [outSource outTarget]. unfold corrected.
    split; [destruct (position (source p)) | destruct (position (target p))];
      reflexivity.
Qed.

(** ** The optimizer on its own output *)

Lemma mergeOne_emptyTable t q :
  mergeOne t emptyTable q = {| id := id q; x := floor (x q); y := floor (y q) |}
  /\ tableAfter t emptyTable [q] = {| onX := [floor (x q)]; onY := [floor (y q)] |}.
Proof. split; reflexivity. Qed.

(** The corrected source point is merged to the same point, and leaves the
    same table, as the source anchor itself. *)
Lemma corrected_source_merged t (h : HandlePosition) :
  let c := corrected h (mergeOne t emptyTable h) in
  mergeOne t emptyTable c = mergeOne t emptyTable h
  /\ tableAfter t emptyTable [c] = tableAfter t emptyTable [point h].
Proof.
  intros c. subst c.
  destruct (mergeOne_emptyTable t (corrected h (mergeOne t emptyTable h))) as [-> ->].
  destruct (mergeOne_emptyTable t h) as [-> ->].
  unfold corrected.
  destruct (isHorizontalFromPosition (position h)); simpl;
    now rewrite floor_floor.
Qed.

(** Correcting the merged corrected target gives the corrected target. *)
Lemma corrected_target_merged t R pos (h : HandlePosition) (q : ControlPoint) :
  Settled t R -> within pos R AxisX -> within pos R AxisY ->
  In (x q) (onX R) -> In (y q) (onY R) ->
  corrected {| point := corrected h q; position := position h |}
            (mergeOne t pos (corrected h q))
  = corrected h q.
Proof.
  intros HR HsubX HsubY Hx Hy. unfold corrected. cbn [position point].
  destruct (isHorizontalFromPosition (position h)); unfold mergeOne, setX, setY;
    cbn [id x y].
  - f_equal.
    apply (findPosition_fixed t R _ AxisY (y q) HR); [|exact Hy].
    intros e. rewrite findPosition_other_axis by discriminate. apply HsubY.
  - f_equal.
    apply (findPosition_fixed t R _ AxisX (x q) HR HsubX Hx).
Qed.

(** C2 (idempotence of the optimizer).  For every input the optimizer
    returns a result, and a second run on that result (the returned source,
    target, source offset, target offset and edge points, with the sides of
    the anchors of the first run) returns the same result again. *)
Theorem optimizeInputPoints_idempotent (p : OptimizePointsParams) :
  exists r, optimizeInputPoints p = Some r
    /\ optimizeInputPoints (feedBack p r) = Some r.
Proof.
  pose (t := defaultThreshold).
  pose proof (mergeClosePoints_mergedInput p t) as HM. cbv zeta in HM.
  fold emptyTable in HM.
  set (pos1 := tableAfter t emptyTable [point (source p)]) in HM.
  set (pos2 := tableAfter t pos1 [sourceOffset p]) in HM.
  set (pos3 := tableAfter t pos2 (edgePoints p)) in HM.
  set (pos4 := tableAfter t pos3 [targetOffset p]) in HM.
  set (s' := mergeOne t emptyTable (source p)) in HM.
  set (so' := mergeOne t pos1 (sourceOffset p)) in HM.
  set (E' := mergeFrom t pos2 (edgePoints p)) in HM.
  set (to' := mergeOne t pos3 (targetOffset p)) in HM.
  set (t' := mergeOne t pos4 (target p)) in HM.
  eexists. split; [exact (optimizeInputPoints_of_merged p _ _ _ _ _ HM)|].
  set (D := dedupFrom [keyOf to'] (so' :: E')).
  set (mid := so' :: renumber (D ++ [to']) ++ [to']).
  (* the table of the first run *)
  pose (R := tableAfter t emptyTable (mergedInput p)).
  assert (HR : Settled t R).
  { apply tableAfter_settled. split; [intros [] a [] | intros [] a b []]. }
  assert (Hin : forall q, In q (s' :: so' :: E' ++ [to'; t']) ->
                          In (x q) (onX R) /\ In (y q) (onY R)).
  { intros q Hq. rewrite <- HM in Hq. now apply mergeFrom_in_table. }
  assert (Hpos1 : forall ax, within pos1 R ax).
  { intros ax. unfold R, mergedInput. cbn [app].
    rewrite (tableAfter_cons t emptyTable (source p)). apply tableAfter_grows. }
  assert (Hmid : forall q, In q mid -> In (x q) (onX R) /\ In (y q) (onY R)).
  { assert (HD : forall q, In q (D ++ [to']) -> In q (so' :: E' ++ [to'; t'])).
    { intros q Hq. apply in_app_or in Hq. destruct Hq as [Hq|[<-|[]]].
      - apply dedupFrom_incl in Hq. destruct Hq as [<-|Hq]; [now left|].
        right. apply in_or_app. now left.
      - right. apply in_or_app. right. now left. }
    intros q [<-|Hq].
    - apply Hin. right. now left.
    - apply in_app_or in Hq. destruct Hq as [Hq|[<-|[]]].
      + apply renumber_coordinates in Hq. destruct Hq as (q0 & Hq0 & -> & ->).
        apply Hin. right. now apply HD.
      + apply Hin. right. apply HD. apply in_or_app. right. now left. }
  destruct (mergeFrom_fixed t R pos1 mid HR (Hpos1 AxisX) (Hpos1 AxisY) Hmid)
    as (Emid & HX & HY).
  destruct (corrected_source_merged t (source p)) as [Es Epos].
  fold s' in Es, Epos. fold pos1 in Epos.
  (* the merged array of the second run *)
  assert (HM2 : mergeClosePoints
                  (mergedInput (feedBack p
                     {| outSource := corrected (source p) s';
                        outTarget := corrected (target p) t';
                        outSourceOffset := so';
                        outTargetOffset := to';
                        outEdgePoints := renumber (D ++ [to']) |}))
                  defaultThreshold
                = s' :: so' :: renumber (D ++ [to'])
                  ++ [to'; mergeOne t (tableAfter t pos1 mid)
                                    (corrected (target p) t')]).
  { unfold mergeClosePoints, mergedInput, feedBack.
    cbn [source target sourceOffset targetOffset edgePoints point
         outSource outTarget outSourceOffset outTargetOffset outEdgePoints].
    fold t. fold emptyTable.
    replace ([corrected (source p) s'; so'] ++ renumber (D ++ [to'])
             ++ [to'; corrected (target p) t'])
      with (corrected (source p) s' :: mid ++ [corrected (target p) t']).
    - rewrite mergeFrom_cons, Es, Epos, mergeFrom_app, Emid.
      rewrite mergeFrom_cons. unfold mid. cbn [app mergeFrom].
      now rewrite <- app_assoc.
    - unfold mid. cbn [app]. now rewrite <- app_assoc. }
  rewrite (optimizeInputPoints_of_merged _ _ _ _ _ _ HM2).
  f_equal. unfold feedBack.
  cbn [source target sourceOffset targetOffset edgePoints
       outSource outTarget outSourceOffset outTargetOffset outEdgePoints].
  f_equal.
  - unfold corrected. cbn [position point].
    destruct (isHorizontalFromPosition (position (source p))); reflexivity.
  - apply (corrected_target_merged t R _ (target p) t' HR HX HY);
      apply Hin; right; right; apply in_or_app; right; right; now left.
  - apply renumber_keys. rewrite !map_app. f_equal.
    rewrite (dedupFrom_keys _ (so' :: renumber (D ++ [to'])) (so' :: D ++ [to'])).
    + unfold D. now rewrite dedupFrom_again.
    + cbn [map]. now rewrite keys_renumber.
Qed.

(** ** Collinearity reduction: first and last element *)

(** The loop only ever pushes. *)
Lemma reduce_fold_extends (points : list ControlPoint) (idxs : list nat)
    (acc : list (option ControlPoint)) :
  exists pushed, fold_left (reduceStep points) idxs acc = acc ++ pushed.
Proof.
  revert acc. induction idxs as [|i idxs IH]; intros acc; simpl.
  - exists []. now rewrite app_nil_r.
  - destruct (IH (reduceStep points acc i)) as [more ->].
    unfold reduceStep.
    destruct (nth_error points i), (nth_error points (i - 1)),
      (nth_error points (i + 1)); try (now exists more).
    destruct (negb _); [|now exists more].
    exists ([Some c] ++ more). now rewrite app_assoc.
Qed.

Lemma reducePoints_first (points : list ControlPoint) :
  hd_error (reducePoints points) = Some (hd_error points).
Proof.
  unfold reducePoints.
  destruct (reduce_fold_extends points (seq 1 (length points - 2))
              [nth_error points 0]) as [pushed ->].
  simpl. now destruct points.
Qed.

Lemma reducePoints_last (points : list ControlPoint) :
  lastOf (reducePoints points) = Some (lastOf points).
Proof. unfold reducePoints. apply lastOf_snoc. Qed.

(** C10 (endpoints of [reducePoints]).  For every input list of length at
    least 2 the first element of the output is the first element of the
    input and the last element of the output is the last element of the
    input; for a one-element input list the output holds that single point
    twice. *)
Theorem reducePoints_endpoints (points : list ControlPoint) :
  ((2 <= length points)%nat ->
   exists first lastP,
     hd_error points = Some first /\ lastOf points = Some lastP
     /\ hd_error (reducePoints points) = Some (Some first)
     /\ lastOf (reducePoints points) = Some (Some lastP))
  /\ (forall p, points = [p] -> reducePoints points = [Some p; Some p]).
Proof.
  split.
  - intros Hlen.
    destruct points as [|first rest]; [simpl in Hlen; lia|].
    destruct (lastOf (first :: rest)) as [lastP|] eqn:El.
    + exists first, lastP. repeat split.
      * apply reducePoints_first.
      * now rewrite reducePoints_last, El.
    + apply nth_error_None in El. simpl in El. lia.
  - intros p ->. reflexivity.
Qed.

Lemma reducePoints_endpoints_witness :
  (exists first lastP,
     hd_error [pt "a" 0 0; pt "b" 5 0; pt "c" 5 5] = Some first
     /\ lastOf [pt "a" 0 0; pt "b" 5 0; pt "c" 5 5] = Some lastP
     /\ hd_error (reducePoints [pt "a" 0 0; pt "b" 5 0; pt "c" 5 5])
        = Some (Some first)
     /\ lastOf (reducePoints [pt "a" 0 0; pt "b" 5 0; pt "c" 5 5])
        = Some (Some lastP))
  /\ reducePoints [pt "a" 0 0] = [Some (pt "a" 0 0); Some (pt "a" 0 0)].
Proof.
  split.
  - apply (proj1 (reducePoints_endpoints [pt "a" 0 0; pt "b" 5 0; pt "c" 5 5])).
    simpl. repeat constructor.
  - apply (proj2 (reducePoints_endpoints [pt "a" 0 0]) (pt "a" 0 0)).
    reflexivity.
Defined.

(** ** Collinearity reduction: the loop, by recursion on the array *)

Lemma reduce_fold_interior (points : list ControlPoint) :
  forall (rest pre : list ControlPoint) (prev : ControlPoint)
         (acc : list (option ControlPoint)),
    points = pre ++ prev :: rest ->
    fold_left (reduceStep points) (seq (S (length pre)) (length rest - 1)) acc
    = acc ++ map Some (keptInterior prev rest).
Proof.
  induction rest as [|p rest IH]; intros pre prev acc Hpts.
  - simpl. now rewrite app_nil_r.
  - destruct rest as [|next tl].
    + simpl. now rewrite app_nil_r.
    + replace (length (p :: next :: tl) - 1)%nat with (S (length (next :: tl) - 1))
        by (simpl; lia).
      cbn [seq fold_left].
      assert (Hi : nth_error points (S (length pre)) = Some p).
      { rewrite Hpts, nth_error_app2 by lia.
        replace (S (length pre) - length pre)%nat with 1%nat by lia. reflexivity. }
      assert (Hp : nth_error points (S (length pre) - 1) = Some prev).
      { rewrite Hpts, nth_error_app2 by lia.
        replace (S (length pre) - 1 - length pre)%nat with 0%nat by lia.
        reflexivity. }
      assert (Hn : nth_error points (S (length pre) + 1) = Some next).
      { rewrite Hpts, nth_error_app2 by lia.
        replace (S (length pre) + 1 - length pre)%nat with 2%nat by lia.
        reflexivity. }
      unfold reduceStep at 2. rewrite Hi, Hp, Hn.
      specialize (IH (pre ++ [prev]) p).
      rewrite length_app, Nat.add_1_r in IH.
      rewrite IH by (rewrite Hpts, <- app_assoc; reflexivity).
      cbn [keptInterior].
      destruct (negb (isInLine p prev next)); [|reflexivity].
      now rewrite <- app_assoc.
Qed.

Lemma last_default {A : Type} (l : list A) (a b c : A) :
  last (c :: l) a = last (c :: l) b.
Proof.
  revert c. induction l as [|d l IH]; intros c; [reflexivity|].
  exact (IH d).
Qed.

Lemma nth_error_last {A : Type} (l : list A) (a : A) :
  nth_error (a :: l) (length l) = Some (last l a).
Proof.
  revert a. induction l as [|p l IH]; intros a; [reflexivity|].
  cbn [length nth_error]. rewrite IH.
  destruct l as [|q l]; [reflexivity|].
  f_equal. exact (last_default l p a q).
Qed.

(** The array [reducePoints] returns for a non-empty array. *)
Lemma reducePoints_cons (first : ControlPoint) (rest : list ControlPoint) :
  reducePoints (first :: rest)
  = map Some (first :: keptInterior first rest ++ [last rest first]).
Proof.
  unfold reducePoints.
  replace (length (first :: rest) - 2)%nat with (length rest - 1)%nat
    by (simpl; lia).
  rewrite (reduce_fold_interior (first :: rest) rest [] first) by reflexivity.
  cbn [nth_error map app]. f_equal. rewrite map_app. f_equal. cbn [map].
  f_equal.
  replace (length (first :: rest) - 1)%nat with (length rest) by (simpl; lia).
  apply nth_error_last.
Qed.

(** ** Collinearity reduction: paths without repeated consecutive points *)

Lemma isInLine_true (p p1 p2 : ControlPoint) :
  isInLine p p1 p2 = true <->
  (x p1 == x p /\ x p == x p2
   /\ (y p1 <= y p <= y p2 \/ y p2 <= y p <= y p1))
  \/ (y p1 == y p /\ y p == y p2
      /\ (x p1 <= x p <= x p2 \/ x p2 <= x p <= x p1)).
Proof.
  unfold isInLine.
  rewrite orb_true_iff, !andb_true_iff, !Qeq_bool_iff, !Qgeb_ge, !Qle_bool_iff.
  destruct (Qltb (x p1) (x p2)) eqn:Ex; destruct (Qltb (y p1) (y p2)) eqn:Ey;
    cbn [fst snd];
    try apply Qltb_lt in Ex; try apply Qltb_ge in Ex;
    try apply Qltb_lt in Ey; try apply Qltb_ge in Ey;
    (split;
     [ intros [[[[H1 H2] H3] H4]|[[[H1 H2] H3] H4]];
       [left|right]; (split; [exact H1|]); (split; [exact H2|]);
       ((left; split; lra) || (right; split; lra))
     | intros [(H1 & H2 & H3)|(H1 & H2 & H3)]; [left|right];
       repeat split; auto; destruct H3 as [[? ?]|[? ?]]; lra ]).
Qed.

Lemma isEqualPoint_false (a b : ControlPoint) :
  isEqualPoint a b = false <-> ~ (x a == x b /\ y a == y b).
Proof.
  unfold isEqualPoint.
  rewrite <- not_true_iff_false, andb_true_iff, !Qeq_bool_iff. tauto.
Qed.

Lemma isEqualPoint_sym (a b : ControlPoint) : isEqualPoint a b = isEqualPoint b a.
Proof. exact (key_eqb_sym (keyOf a) (keyOf b)). Qed.

Lemma Qle_neq_lt (a b : Q) : a <= b -> ~ a == b -> a < b.
Proof. intros Hle Hne. apply Qle_lteq in Hle. tauto. Qed.

Lemma heads_trans d a b c : heads d a b -> heads d b c -> heads d a c.
Proof. destruct d; intros [? ?] [? ?]; split; lra. Qed.

Lemma heads_unique d d' a b : heads d a b -> heads d' a b -> d = d'.
Proof.
  destruct d, d'; intros [? ?] [? ?]; try reflexivity; exfalso; lra.
Qed.

Lemma heads_distinct d a b : heads d a b -> isEqualPoint a b = false.
Proof.
  intros H. apply isEqualPoint_false. intros [Hx Hy].
  destruct d; destruct H as [? ?]; lra.
Qed.

(** A point on the segment between two points, both at other coordinates
    than its own, is reached and left with the same heading. *)
Lemma isInLine_heads (p p1 p2 : ControlPoint) :
  isEqualPoint p1 p = false -> isEqualPoint p p2 = false ->
  isInLine p p1 p2 = true ->
  exists d, heads d p1 p /\ heads d p p2.
Proof.
  intros H1 H2 Hin.
  apply isEqualPoint_false in H1, H2. apply isInLine_true in Hin.
  destruct Hin as [(Ea & Eb & [[La Lb]|[La Lb]])|(Ea & Eb & [[La Lb]|[La Lb]])].
  - exists South. split; (split; [assumption|]); apply Qle_neq_lt; tauto.
  - exists North. split; (split; [assumption|]); apply Qle_neq_lt; try tauto;
      intros E; symmetry in E; tauto.
  - exists East. split; (split; [assumption|]); apply Qle_neq_lt; tauto.
  - exists West. split; (split; [assumption|]); apply Qle_neq_lt; try tauto;
      intros E; symmetry in E; tauto.
Qed.

Lemma heads_isInLine d (p p1 p2 : ControlPoint) :
  heads d p1 p -> heads d p p2 -> isInLine p p1 p2 = true.
Proof.
  intros H1 H2. apply isInLine_true.
  destruct d; destruct H1 as [E1 L1], H2 as [E2 L2].
  - right. repeat split; auto. left. split; lra.
  - right. repeat split; auto. right. split; lra.
  - left. repeat split; auto. left. split; lra.
  - left. repeat split; auto. right. split; lra.
Qed.

Lemma straightRun_heads k prev p leaves :
  straightRun k prev p leaves -> isEqualPoint prev p = false ->
  isEqualPoint k p = false
  /\ (forall d, heads d k p -> leaves d)
  /\ (forall d, heads d k p -> heads d prev p).
Proof.
  intros [[-> Hl]|(d0 & Hl & Hk & Hp)] Hne.
  - split; [exact Hne|]. split; [apply Hl | auto].
  - pose proof (heads_trans _ _ _ _ Hk Hp) as Hkp.
    split; [exact (heads_distinct _ _ _ Hkp)|].
    split; intros d Hd; now rewrite (heads_unique _ _ _ _ Hd Hkp).
Qed.

(** The next point pushed after [k] does not put [k] on a segment. *)
Lemma straightRun_turn u0 k prev p leaves :
  straightRun k prev p leaves -> turnsAt (Some u0) k leaves ->
  isEqualPoint prev p = false ->
  isInLine k u0 p = false.
Proof.
  intros Hrun [Hne Hturn] Hpp.
  destruct (straightRun_heads _ _ _ _ Hrun Hpp) as (Hkp & Hl & _).
  destruct (isInLine k u0 p) eqn:E; [exfalso|reflexivity].
  destruct (isInLine_heads _ _ _ Hne Hkp E) as (d & Hu & Hk).
  exact (Hturn d Hu (Hl d Hk)).
Qed.

Lemma reduce_run_invariant (rest : list ControlPoint) :
  forall (p : ControlPoint) (prev k : ControlPoint) (u : option ControlPoint)
         (leaves : Heading -> Prop),
    noConsecutiveRepeat (prev :: p :: rest) = true ->
    straightRun k prev p leaves ->
    turnsAt u k leaves ->
    noCollinearInterior
      (consOption u (k :: keptInterior prev (p :: rest)
                       ++ [last (p :: rest) prev])) = true.
Proof.
  induction rest as [|next tl IH]; intros p prev k u leaves Hrep Hrun Hturn.
  - (* [p] is the last point *)
    cbn [keptInterior app last].
    destruct u as [u0|]; [|reflexivity].
    cbn [consOption noCollinearInterior].
    cbn [noConsecutiveRepeat] in Hrep. rewrite andb_true_r in Hrep.
    apply negb_true_iff in Hrep.
    now rewrite (straightRun_turn _ _ _ _ _ Hrun Hturn Hrep).
  - cbn [noConsecutiveRepeat] in Hrep. apply andb_true_iff in Hrep.
    destruct Hrep as [Hpp Hrep]. apply negb_true_iff in Hpp.
    assert (Hpn : isEqualPoint p next = false).
    { cbn [noConsecutiveRepeat] in Hrep. apply andb_true_iff in Hrep.
      now apply negb_true_iff. }
    destruct (straightRun_heads _ _ _ _ Hrun Hpp) as (Hkp & Hl & Hprev).
    replace (last (p :: next :: tl) prev) with (last (next :: tl) p)
      by (symmetry; apply (last_default tl prev p next)).
    cbn [keptInterior].
    destruct (isInLine p prev next) eqn:E; cbn [negb].
    + (* [p] is dropped: the run goes on *)
      apply (IH next p k u leaves Hrep); [|exact Hturn].
      destruct (isInLine_heads _ _ _ Hpp Hpn E) as (d & Hd1 & Hd2).
      right. exists d.
      destruct Hrun as [[-> Hlv]|(d0 & Hlv & Hk & Hp)].
      * repeat split; auto.
      * assert (Ed : d = d0) by exact (heads_unique _ _ _ _ Hd1 Hp).
        subst d0. repeat split; auto.
        now apply (heads_trans _ _ prev).
    + (* [p] is pushed *)
      assert (Hnext : noCollinearInterior
                        (k :: p :: keptInterior p (next :: tl)
                           ++ [last (next :: tl) p]) = true).
      { apply (IH next p p (Some k) (fun d => heads d p next) Hrep).
        - left. split; [reflexivity|]. intros d. reflexivity.
        - split; [exact Hkp|]. intros d Hd Hd'.
          rewrite (heads_isInLine d p prev next (Hprev d Hd) Hd') in E.
          discriminate. }
      destruct u as [u0|]; [|exact Hnext].
      cbn [consOption app noCollinearInterior].
      rewrite (straightRun_turn _ _ _ _ _ Hrun Hturn Hpp). exact Hnext.
Qed.

(** X26.  Where no two consecutive points of a non-empty input have the same
    coordinates, no point [reducePoints] returns lies on the segment between
    the points returned before and after it. *)
Theorem reducePoints_no_collinear_interior (first : ControlPoint)
    (rest : list ControlPoint) :
  noConsecutiveRepeat (first :: rest) = true ->
  exists out, reducePoints (first :: rest) = map Some out
              /\ noCollinearInterior out = true.
Proof.
  intros Hrep. eexists. split; [apply reducePoints_cons|].
  destruct rest as [|p rest]; [reflexivity|].
  apply (reduce_run_invariant rest p first first None
           (fun d => heads d first p) Hrep).
  - left. split; [reflexivity|]. intros d. reflexivity.
  - exact I.
Qed.

(** ** Collinearity reduction: a point that stays on the segment of its
    neighbours *)

(** C5 (no collinear interior point), at a failing input.  [reducePoints]
    returns the three points a, b, e of [backtrackingPath], and b lies on the
    segment from a to e: b was tested against its neighbours a and c of the
    input, not against the points that remain. *)
Theorem reducePoints_keeps_collinear_point :
  reducePoints backtrackingPath
  = [Some (pt "a" 6 0); Some (pt "b" 5 0); Some (pt "e" 0 0)]
  /\ isInLine (pt "b" 5 0) (pt "a" 6 0) (pt "e" 0 0) = true.
Proof. split; reflexivity. Qed.

(** ** Intersection with a degenerate rect *)

(** C6, the claim as stated, fails: a rect of width 0 and height 10 is the
    vertical segment from (0,0) to (0,10), and the horizontal segment from
    (-5,5) to (5,5) is reported to cross it. *)
Lemma isSegmentCrossingRect_flat_rect :
  (Rect.width (Rect.mkNodeRect 0 0 0 10) == 0
   \/ Rect.height (Rect.mkNodeRect 0 0 0 10) == 0)
  /\ isSegmentCrossingRect (pt "p1" (-5) 5) (pt "p2" 5 5)
                           (Rect.mkNodeRect 0 0 0 10) = true.
Proof. split; [left|]; reflexivity. Qed.

(** C6 (degenerate obstacle rect), amended.  For every pair of segment
    endpoints and every rect whose width is 0 and whose height is 0 as well,
    [isSegmentCrossingRect] returns false. *)
Theorem isSegmentCrossingRect_point_rect (p1 p2 : ControlPoint) (box : NodeRect) :
  Rect.width box == 0 -> Rect.height box == 0 ->
  isSegmentCrossingRect p1 p2 box = false.
Proof.
  intros Hw Hh. unfold isSegmentCrossingRect.
  apply Qeq_bool_iff in Hw, Hh. now rewrite Hw, Hh.
Qed.

Lemma isSegmentCrossingRect_point_rect_witness :
  isSegmentCrossingRect (pt "p1" (-5) 5) (pt "p2" 5 5)
                        (Rect.mkNodeRect 0 5 0 0) = false.
Proof.
  apply isSegmentCrossingRect_point_rect; reflexivity.
Defined.

(** ** Overlap of rects *)

(** C7 (rectangle overlap), at a failing input.  The rect of width and
    height 2 at (7,7) lies inside the rect of width and height 10 at (0,0);
    their centers (8,8) and (5,5) are 3 apart on both axes, less than the
    half sums 6, but [isRectOverLapping] measures the distance 7 between the
    top left corners and returns false. *)
Theorem isRectOverLapping_misses_inner_rect :
  isRectOverLapping (Rect.mkNodeRect 0 0 10 10) (Rect.mkNodeRect 7 7 2 2) = false
  /\ isRectOverLapping_asSpecified (Rect.mkNodeRect 0 0 10 10) (Rect.mkNodeRect 7 7 2 2) = true
  /\ isPointInRect (pt "topLeft" 7 7) (Rect.mkNodeRect 0 0 10 10) = true
  /\ isPointInRect (pt "bottomRight" 9 9) (Rect.mkNodeRect 0 0 10 10) = true.
Proof. repeat split. Qed.

(** ** Overlap of rects of the same size *)

(** For two rects of the same width and the same height the distance
    between the top left corners is the distance between the centers, and
    [isRectOverLapping] is the test on the centers. *)
Lemma isRectOverLapping_same_size (rect1 rect2 : NodeRect) :
  Rect.width rect1 == Rect.width rect2 ->
  Rect.height rect1 == Rect.height rect2 ->
  isRectOverLapping rect1 rect2 = isRectOverLapping_asSpecified rect1 rect2.
Proof.
  intros Hw Hh. unfold isRectOverLapping, isRectOverLapping_asSpecified, Qltb.
  f_equal; f_equal; apply Qleb_comp; try reflexivity; apply Qabs_wd.
  - rewrite Hw. field.
  - rewrite Hh. field.
Qed.

(** ** Dragging a segment *)

(** C8 (drag translation is perpendicular only).  A drag-move reaches the
    handler only on a segment the handle is mounted for, and
    [EdgeControllers] mounts it only where [edge.canDrag]: the segment has a
    length, its two ends do not coincide.  For every such segment, with
    (dx,dy) the delta in diagram space, the event keeps [from]; on a
    horizontal segment ([start.y === end.y]) the endpoints of [to] have the
    x of [from] and the y of [from] plus dy; on a vertical segment
    ([start.x === end.x]) they have the y of [from] and the x of [from]
    plus dx.  In particular dragging (10,50)-(90,50) by the diagram delta
    (0,20) gives (10,70)-(90,70). *)
Theorem onDragging_perpendicular (screenToFlowPosition : XY.t -> XY.t)
    (edge : ILine) (drag : string) (position delta : XY.t) :
  isEqualPoint (start edge) (end_ edge) = false ->
  let event := onDragging screenToFlowPosition edge drag position delta in
  let dx := XY.x (flowDelta screenToFlowPosition position delta) in
  let dy := XY.y (flowDelta screenToFlowPosition position delta) in
  from event = edge
  /\ (y (start edge) == y (end_ edge) ->
      x (start (to event)) = x (start edge)
      /\ x (end_ (to event)) = x (end_ edge)
      /\ y (start (to event)) = y (start edge) + dy
      /\ y (end_ (to event)) = y (end_ edge) + dy)
  /\ (x (start edge) == x (end_ edge) ->
      y (start (to event)) = y (start edge)
      /\ y (end_ (to event)) = y (end_ edge)
      /\ x (start (to event)) = x (start edge) + dx
      /\ x (end_ (to event)) = x (end_ edge) + dx)
  /\ (edge = {| start := pt "a" 10 50; end_ := pt "b" 90 50 |} ->
      dx == 0 -> dy == 20 ->
      x (start (to event)) == 10 /\ y (start (to event)) == 70
      /\ x (end_ (to event)) == 90 /\ y (end_ (to event)) == 70).
Proof.
  intros Hlength. cbv zeta. unfold onDragging.
  destruct (Qeq_bool (y (start edge)) (y (end_ edge))) eqn:E;
    cbn [from to start end_ setX setY x y id];
    (split; [now destruct edge|]).
  - split; [intros _; repeat split|].
    split.
    + intros Hx. exfalso. apply Qeq_bool_iff in Hx.
      unfold isEqualPoint in Hlength. rewrite Hx, E in Hlength.
      discriminate Hlength.
    + intros -> _ Hdy. cbn [start end_]. rewrite Hdy. repeat split.
  - split; [intros Hy; apply Qeq_bool_iff in Hy; congruence|].
    split; [intros _; repeat split|].
    intros -> _ _. vm_compute in E. discriminate E.
Qed.

Lemma onDragging_perpendicular_witness :
  let event :=
    onDragging identityViewport
               {| start := pt "a" 10 50; end_ := pt "b" 90 50 |} "drag"
               {| XY.x := 100; XY.y := 120 |} {| XY.x := 0; XY.y := 20 |} in
  let event' :=
    onDragging identityViewport
               {| start := pt "a" 30 10; end_ := pt "b" 30 80 |} "drag"
               {| XY.x := 7; XY.y := 0 |} {| XY.x := 7; XY.y := 3 |} in
  (x (start (to event)) == 10 /\ y (start (to event)) == 70
   /\ x (end_ (to event)) == 90 /\ y (end_ (to event)) == 70)
  /\ (y (start (to event')) = 10 /\ y (end_ (to event')) = 80
      /\ x (start (to event')) = 30 + (7 - (7 - 7))
      /\ x (end_ (to event')) = 30 + (7 - (7 - 7))).
Proof.
  cbv zeta. split.
  - apply (onDragging_perpendicular identityViewport
             {| start := pt "a" 10 50; end_ := pt "b" 90 50 |} "drag"
             {| XY.x := 100; XY.y := 120 |} {| XY.x := 0; XY.y := 20 |});
      reflexivity.
  - apply (onDragging_perpendicular identityViewport
             {| start := pt "a" 30 10; end_ := pt "b" 30 80 |} "drag"
             {| XY.x := 7; XY.y := 0 |} {| XY.x := 7; XY.y := 3 |});
      reflexivity.
Defined.

(** ** Rects: corners and bounding sides *)

Lemma isPointInRect_true (p : ControlPoint) (box : NodeRect) :
  isPointInRect p box = true <-> insideSides (getRectSides box) p.
Proof.
  unfold isPointInRect, insideSides.
  rewrite !andb_true_iff, !Qgeb_ge, !Qle_bool_iff. tauto.
Qed.

(** X3.  [getRectVertices] returns four corners, and those of a rect of
    non-negative width and height all pass [isPointInRect] for that rect:
    the bounds of the test are inclusive. *)
Theorem getRectVertices_inside (box : NodeRect) :
  0 <= Rect.width box -> 0 <= Rect.height box ->
  length (getRectVertices box) = 4%nat
  /\ forallb (fun v => isPointInRect v box) (getRectVertices box) = true.
Proof.
  intros Hw Hh. split; [reflexivity|].
  apply forallb_forall. intros v Hv. apply isPointInRect_true.
  unfold getRectVertices, getRectVerticesFromSides in Hv.
  unfold insideSides, getRectSides; cbn.
  cbn in Hv. destruct Hv as [<-|[<-|[<-|[<-|[]]]]]; cbn; repeat split; lra.
Qed.

Lemma getRectVertices_inside_witness :
  length (getRectVertices (Rect.mkNodeRect 1 2 30 40)) = 4%nat
  /\ forallb (fun v => isPointInRect v (Rect.mkNodeRect 1 2 30 40))
             (getRectVertices (Rect.mkNodeRect 1 2 30 40)) = true.
Proof.
  apply getRectVertices_inside; discriminate.
Defined.

(** *** [Math.min] and [Math.max] of a list *)

Lemma fold_Qmin_le (rest : list Q) (v : Q) :
  fold_left Qmin rest v <= v
  /\ Forall (fun e => fold_left Qmin rest v <= e) rest.
Proof.
  revert v. induction rest as [|e rest IH]; intros v; cbn.
  - split; [apply Qle_refl | constructor].
  - destruct (IH (Qmin v e)) as [H1 H2]. split.
    + eapply Qle_trans; [exact H1 | apply Q.le_min_l].
    + constructor; [eapply Qle_trans; [exact H1 | apply Q.le_min_r] | exact H2].
Qed.

Lemma fold_Qmax_le (rest : list Q) (v : Q) :
  v <= fold_left Qmax rest v
  /\ Forall (fun e => e <= fold_left Qmax rest v) rest.
Proof.
  revert v. induction rest as [|e rest IH]; intros v; cbn.
  - split; [apply Qle_refl | constructor].
  - destruct (IH (Qmax v e)) as [H1 H2]. split.
    + eapply Qle_trans; [apply Q.le_max_l | exact H1].
    + constructor; [eapply Qle_trans; [apply Q.le_max_r | exact H1] | exact H2].
Qed.

Lemma Qmin_either (a b : Q) : Qmin a b = a \/ Qmin a b = b.
Proof.
  unfold Qmin, GenericMinMax.gmin. destruct (a ?= b); auto.
Qed.

Lemma Qmax_either (a b : Q) : Qmax a b = a \/ Qmax a b = b.
Proof.
  unfold Qmax, GenericMinMax.gmax. destruct (a ?= b); auto.
Qed.

Lemma fold_Qmin_in (rest : list Q) (v : Q) : In (fold_left Qmin rest v) (v :: rest).
Proof.
  revert v. induction rest as [|e rest IH]; intros v; cbn; [auto|].
  destruct (IH (Qmin v e)) as [H|H]; [|auto].
  rewrite <- H. destruct (Qmin_either v e) as [E|E]; rewrite E; auto.
Qed.

Lemma fold_Qmax_in (rest : list Q) (v : Q) : In (fold_left Qmax rest v) (v :: rest).
Proof.
  revert v. induction rest as [|e rest IH]; intros v; cbn; [auto|].
  destruct (IH (Qmax v e)) as [H|H]; [|auto].
  rewrite <- H. destruct (Qmax_either v e) as [E|E]; rewrite E; auto.
Qed.

(** The minimum of a non-empty list is a member below all members. *)
Lemma minOf_spec (v : Q) (rest : list Q) :
  exists m, minOf (v :: rest) = Some m
            /\ In m (v :: rest) /\ Forall (fun e => m <= e) (v :: rest).
Proof.
  exists (fold_left Qmin rest v). split; [reflexivity|].
  split; [apply fold_Qmin_in|].
  destruct (fold_Qmin_le rest v) as [H1 H2]. now constructor.
Qed.

Lemma maxOf_spec (v : Q) (rest : list Q) :
  exists m, maxOf (v :: rest) = Some m
            /\ In m (v :: rest) /\ Forall (fun e => e <= m) (v :: rest).
Proof.
  exists (fold_left Qmax rest v). split; [reflexivity|].
  split; [apply fold_Qmax_in|].
  destruct (fold_Qmax_le rest v) as [H1 H2]. now constructor.
Qed.

(** The bounding sides of a non-empty list enclose every point, and each
    side is the coordinate of one of the points. *)
Lemma getSidesFromPoints_cons (first : ControlPoint) (rest : list ControlPoint) :
  exists sides,
    getSidesFromPoints (first :: rest) = Some sides
    /\ Forall (insideSides sides) (first :: rest)
    /\ In (left sides) (map x (first :: rest))
    /\ In (right sides) (map x (first :: rest))
    /\ In (top sides) (map y (first :: rest))
    /\ In (bottom sides) (map y (first :: rest)).
Proof.
  destruct (minOf_spec (x first) (map x rest)) as (l & El & Il & Fl).
  destruct (maxOf_spec (x first) (map x rest)) as (r & Er & Ir & Fr).
  destruct (minOf_spec (y first) (map y rest)) as (t & Et & It & Ft).
  destruct (maxOf_spec (y first) (map y rest)) as (b & Eb & Ib & Fb).
  exists {| top := t; right := r; bottom := b; left := l |}.
  unfold getSidesFromPoints. cbn [map]. rewrite El, Er, Et, Eb. cbn [bind].
  split; [reflexivity|]. split; [|cbn [left right top bottom]; auto].
  change (x first :: map x rest) with (map x (first :: rest)) in Fl, Fr.
  change (y first :: map y rest) with (map y (first :: rest)) in Ft, Fb.
  rewrite Forall_map in Fl, Fr, Ft, Fb.
  rewrite Forall_forall in *. intros p Hp.
  unfold insideSides; cbn. repeat split; auto.
Qed.

(** X4.  Of an empty list [getSidesFromPoints] has no finite sides; of a
    non-empty list it returns sides that enclose every point, each side
    being the coordinate of one of the points. *)
Theorem getSidesFromPoints_bounds :
  getSidesFromPoints [] = None
  /\ forall (first : ControlPoint) (rest : list ControlPoint),
       exists sides,
         getSidesFromPoints (first :: rest) = Some sides
         /\ Forall (insideSides sides) (first :: rest)
         /\ In (left sides) (map x (first :: rest))
         /\ In (right sides) (map x (first :: rest))
         /\ In (top sides) (map y (first :: rest))
         /\ In (bottom sides) (map y (first :: rest)).
Proof. split; [reflexivity | exact getSidesFromPoints_cons]. Qed.

(** X5.  For a rect of non-negative width and height the bounding sides of
    its four corners are its own sides. *)
Theorem getSidesFromPoints_getRectVertices (box : NodeRect) :
  0 <= Rect.width box -> 0 <= Rect.height box ->
  exists sides,
    getSidesFromPoints (getRectVertices box) = Some sides
    /\ sameSides sides (getRectSides box).
Proof.
  intros Hw Hh.
  destruct (getSidesFromPoints_cons
              (mkControlPoint uuid (Rect.x box) (Rect.y box))
              (tl (getRectVertices box)))
    as (sides & E & Hin & Hl & Hr & Ht & Hb).
  exists sides. split; [exact E|].
  rewrite Forall_forall in Hin.
  pose proof (Hin _ (or_introl eq_refl)) as [[? ?] [? ?]].
  pose proof (Hin _ (or_intror (or_intror (or_introl eq_refl)))) as [[? ?] [? ?]].
  cbn in *. unfold sameSides; cbn.
  repeat split.
  - destruct Ht as [E1|[E1|[E1|[E1|[]]]]]; rewrite <- E1 in *; lra.
  - destruct Hr as [E1|[E1|[E1|[E1|[]]]]]; rewrite <- E1 in *; lra.
  - destruct Hb as [E1|[E1|[E1|[E1|[]]]]]; rewrite <- E1 in *; lra.
  - destruct Hl as [E1|[E1|[E1|[E1|[]]]]]; rewrite <- E1 in *; lra.
Qed.

Lemma getSidesFromPoints_getRectVertices_witness :
  exists sides,
    getSidesFromPoints (getRectVertices (Rect.mkNodeRect 1 2 30 40)) = Some sides
    /\ sameSides sides (getRectSides (Rect.mkNodeRect 1 2 30 40)).
Proof.
  apply getSidesFromPoints_getRectVertices; discriminate.
Defined.

(** ** Merged rects *)

(** X6.  Of no rect at all [mergeRects] has no finite result; of at least one
    rect it returns a rect of non-negative width and height whose x is the
    left or the right side of one of the rects given and whose y is the top
    or the bottom side of one of them, and no corner of a rect given lies
    left of that x or above that y. *)
Theorem mergeRects_top_left :
  mergeRects [] = None
  /\ forall (first : NodeRect) (rest : list NodeRect),
       exists merged,
         mergeRects (first :: rest) = Some merged
         /\ 0 <= Rect.width merged /\ 0 <= Rect.height merged
         /\ In (Rect.x merged) (spanX (first :: rest))
         /\ In (Rect.y merged) (spanY (first :: rest))
         /\ Forall (fun box =>
                      Forall (fun v => Rect.x merged <= x v /\ Rect.y merged <= y v)
                             (getRectVertices box))
                   (first :: rest).
Proof.
  split; [reflexivity|]. intros first rest.
  unfold mergeRects. cbn [spanX spanY flat_map app].
  fold (spanX rest). fold (spanY rest).
  destruct (minOf_spec (Rect.x first) (Rect.x first + Rect.width first :: spanX rest))
    as (l & -> & Il & Fl).
  destruct (maxOf_spec (Rect.x first) (Rect.x first + Rect.width first :: spanX rest))
    as (r & -> & Ir & Fr).
  destruct (minOf_spec (Rect.y first) (Rect.y first + Rect.height first :: spanY rest))
    as (t & -> & It & Ft).
  destruct (maxOf_spec (Rect.y first) (Rect.y first + Rect.height first :: spanY rest))
    as (b & -> & Ib & Fb).
  cbn [bind]. eexists. split; [reflexivity|].
  cbn [Rect.x Rect.y Rect.width Rect.height].
  rewrite Forall_forall in Fl, Fr, Ft, Fb.
  split; [|split; [|split; [exact Il|split; [exact It|]]]].
  - pose proof (Fl _ Ir). lra.
  - pose proof (Ft _ Ib). lra.
  - assert (HX : forall box, In box (first :: rest) ->
                   In (Rect.x box)
                      (Rect.x first :: Rect.x first + Rect.width first :: spanX rest)
                   /\ In (Rect.x box + Rect.width box)
                         (Rect.x first :: Rect.x first + Rect.width first :: spanX rest)).
    { intros box [<-|Hb]; [cbn; auto|].
      split; right; right; apply in_flat_map; exists box; cbn; auto. }
    assert (HY : forall box, In box (first :: rest) ->
                   In (Rect.y box)
                      (Rect.y first :: Rect.y first + Rect.height first :: spanY rest)
                   /\ In (Rect.y box + Rect.height box)
                         (Rect.y first :: Rect.y first + Rect.height first :: spanY rest)).
    { intros box [<-|Hb]; [cbn; auto|].
      split; right; right; apply in_flat_map; exists box; cbn; auto. }
    apply Forall_forall. intros box Hbox.
    destruct (HX box Hbox) as [X1 X2]. destruct (HY box Hbox) as [Y1 Y2].
    pose proof (Fl _ X1). pose proof (Fl _ X2).
    pose proof (Ft _ Y1). pose proof (Ft _ Y2).
    unfold getRectVertices, getRectVerticesFromSides, getRectSides.
    cbn. repeat constructor; cbn; assumption.
Qed.

(** ** The rect around a rect and a point *)

(** X8.  [getVerticesFromRectVertex] returns the four corners, clockwise
    from the top left one, of sides that enclose the given point and the four
    corners of the given rect; when the point lies inside the rect these are
    the sides of the rect itself. *)
Theorem getVerticesFromRectVertex_encloses (box : NodeRect) (vertex : ControlPoint) :
  exists sides corners,
    getVerticesFromRectVertex box vertex = Some corners
    /\ map keyOf corners
       = [(left sides, top sides); (right sides, top sides);
          (right sides, bottom sides); (left sides, bottom sides)]
    /\ insideSides sides vertex
    /\ Forall (insideSides sides) (getRectVertices box)
    /\ (isPointInRect vertex box = true -> sameSides sides (getRectSides box)).
Proof.
  destruct (getSidesFromPoints_cons vertex (getRectVertices box))
    as (sides & E & Hin & Hl & Hr & Ht & Hb).
  exists sides. unfold getVerticesFromRectVertex. rewrite E. cbn [bind].
  eexists. split; [reflexivity|]. split; [reflexivity|].
  inversion Hin as [|? ? Hv Hbox]; subst.
  split; [exact Hv|]. split; [exact Hbox|].
  intros Hinside. apply isPointInRect_true in Hinside.
  rewrite Forall_forall in Hbox.
  pose proof (Hbox _ (or_introl eq_refl)) as [[? ?] [? ?]].
  pose proof (Hbox _ (or_intror (or_intror (or_introl eq_refl)))) as [[? ?] [? ?]].
  destruct Hinside as [[? ?] [? ?]].
  cbn in *. unfold sameSides; cbn.
  repeat split.
  - destruct Ht as [E1|[E1|[E1|[E1|[E1|[]]]]]]; rewrite <- E1 in *; lra.
  - destruct Hr as [E1|[E1|[E1|[E1|[E1|[]]]]]]; rewrite <- E1 in *; lra.
  - destruct Hb as [E1|[E1|[E1|[E1|[E1|[]]]]]]; rewrite <- E1 in *; lra.
  - destruct Hl as [E1|[E1|[E1|[E1|[E1|[]]]]]]; rewrite <- E1 in *; lra.
Qed.

Lemma getVerticesFromRectVertex_encloses_witness :
  exists sides corners,
    getVerticesFromRectVertex (Rect.mkNodeRect 0 0 10 10) (pt "v" 3 4)
    = Some corners
    /\ map keyOf corners
       = [(left sides, top sides); (right sides, top sides);
          (right sides, bottom sides); (left sides, bottom sides)]
    /\ sameSides sides (getRectSides (Rect.mkNodeRect 0 0 10 10)).
Proof.
  destruct (getVerticesFromRectVertex_encloses (Rect.mkNodeRect 0 0 10 10)
              (pt "v" 3 4)) as (sides & corners & E & K & _ & _ & H).
  exists sides, corners. split; [exact E|]. split; [exact K|].
  apply H. reflexivity.
Defined.

(** ** Offset points *)

(** X9.  The offset point of a handle keeps the handle's coordinate across
    the direction of its side, and a non-negative offset never moves it
    inward: up from a top handle, down from a bottom one, left from a left
    one and right from a right one. *)
Theorem getOffsetPoint_outward (h : HandlePosition) (offset : Q) :
  0 <= offset ->
  let p := getOffsetPoint h offset in
  match position h with
  | Top => x p = x h /\ y p <= y h
  | Bottom => x p = x h /\ y h <= y p
  | Left => y p = y h /\ x p <= x h
  | Right => y p = y h /\ x h <= x p
  end.
Proof.
  intros Ho. cbv zeta. unfold getOffsetPoint.
  destruct (position h); cbn [x y]; (split; [reflexivity | lra]).
Qed.

Lemma getOffsetPoint_outward_witness :
  let p := getOffsetPoint {| point := pt "h" 10 5; position := Right |} 20 in
  y p = 5 /\ 10 <= x p.
Proof.
  apply (getOffsetPoint_outward {| point := pt "h" 10 5; position := Right |} 20).
  discriminate.
Defined.

(** ** Points on a segment *)

Lemma isOnLine_true (p p1 p2 : ControlPoint) :
  isOnLine p p1 p2 = true <->
  (x p1 == x p /\ x p == x p2) \/ (y p1 == y p /\ y p == y p2).
Proof.
  unfold isOnLine. rewrite orb_true_iff, !andb_true_iff, !Qeq_bool_iff. tauto.
Qed.

(** X10.  [isInLine] does not depend on the order of the two ends of the
    segment, and a point is on the segment exactly when it is on the axis
    parallel line through both ends ([isOnLine]) and inside the bounding
    sides of the two ends. *)
Theorem isInLine_isOnLine_bounds (p p1 p2 : ControlPoint) :
  isInLine p p1 p2 = isInLine p p2 p1
  /\ exists sides,
       getSidesFromPoints [p1; p2] = Some sides
       /\ (isInLine p p1 p2 = true <->
           isOnLine p p1 p2 = true /\ insideSides sides p).
Proof.
  split.
  - apply eq_true_iff_eq. rewrite !isInLine_true.
    split; intros [(A & B & C)|(A & B & C)];
      [left|right|left|right]; (split; [lra|]); (split; [lra|]); tauto.
  - eexists. split; [reflexivity|].
    rewrite isInLine_true, isOnLine_true. unfold insideSides; cbn.
    destruct (Q.min_spec (x p1) (x p2)) as [[? Emx]|[? Emx]];
      destruct (Q.max_spec (x p1) (x p2)) as [[? EMx]|[? EMx]];
      destruct (Q.min_spec (y p1) (y p2)) as [[? Emy]|[? Emy]];
      destruct (Q.max_spec (y p1) (y p2)) as [[? EMy]|[? EMy]];
      rewrite Emx, EMx, Emy, EMy; try lra;
      (split;
       [ intros [(A & B & [C|C])|(A & B & [C|C])];
         (split; [(left; split; lra) || (right; split; lra)
                 | repeat split; lra])
       | intros [[(A & B)|(A & B)] [[? ?] [? ?]]];
         [ left; split; [lra|]; split; [lra|]; (left; split; lra) || (right; split; lra)
         | right; split; [lra|]; split; [lra|]; (left; split; lra) || (right; split; lra) ] ]).
Qed.

(** ** Overlap of rects: symmetry *)

(** X11.  [isRectOverLapping] does not depend on the order of the two rects,
    and a rect overlaps itself exactly when its width and its height are
    positive. *)
Theorem isRectOverLapping_symmetric (rect1 rect2 : NodeRect) :
  isRectOverLapping rect1 rect2 = isRectOverLapping rect2 rect1
  /\ isRectOverLapping rect1 rect1
     = Qltb 0 (Rect.width rect1) && Qltb 0 (Rect.height rect1).
Proof.
  unfold isRectOverLapping, Qltb. split.
  - rewrite (Qabs_Qminus (Rect.x rect1)), (Qabs_Qminus (Rect.y rect1)).
    f_equal; f_equal; apply Qleb_comp; try reflexivity; field.
  - f_equal; f_equal; apply Qleb_comp;
      try (apply Qabs_self); field.
Qed.

(** ** Candidate points *)

Lemma Qmin_plus_Qmax (a b : Q) : Qmin a b + Qmax a b == a + b.
Proof.
  destruct (Q.min_spec a b) as [[? ->]|[? ->]];
    destruct (Q.max_spec a b) as [[? ->]|[? ->]]; lra.
Qed.

(** X12.  [getCenterPoints] returns at most eight points; none of them lies
    inside the source or the target rect, and each of them has the x or the y
    of the point half way between the two offset points.  When the two
    offset points share their x or their y it returns no point at all. *)
Theorem getCenterPoints_candidates (p : GetVertices.GetVerticesParams) :
  let so := GetVertices.sourceOffset p in
  let to_ := GetVertices.targetOffset p in
  exists points,
    getCenterPoints p = Some points
    /\ (length points <= 8)%nat
    /\ Forall (fun c => isPointInRect c (GetVertices.source p) = false
                        /\ isPointInRect c (GetVertices.target p) = false
                        /\ (x c == (x so + x to_) / 2 \/ y c == (y so + y to_) / 2))
              points
    /\ (x so == x to_ \/ y so == y to_ -> points = []).
Proof.
  cbv zeta. unfold getCenterPoints.
  destruct (Qeq_bool (x (GetVertices.sourceOffset p)) (x (GetVertices.targetOffset p))
            || Qeq_bool (y (GetVertices.sourceOffset p))
                        (y (GetVertices.targetOffset p))) eqn:E.
  - exists []. repeat split; [cbn; lia | constructor].
  - destruct (getSidesFromPoints_cons
                (mkControlPoint uuid (Rect.x (GetVertices.source p))
                                (Rect.y (GetVertices.source p)))
                (tl (getRectVertices (GetVertices.source p))
                 ++ getRectVertices (GetVertices.target p)))
      as (outer & Eo & _).
    change (getSidesFromPoints
              (getRectVertices (GetVertices.source p)
               ++ getRectVertices (GetVertices.target p)) = Some outer) in Eo.
    rewrite Eo. cbn [bind getSidesFromPoints map minOf maxOf fold_left left right top bottom].
    eexists. split; [reflexivity|].
    split; [|split].
    + etransitivity; [apply filter_length_le|]. cbn. lia.
    + apply Forall_forall. intros c Hc. apply filter_In in Hc.
      destruct Hc as [Hc Hf]. apply andb_true_iff in Hf.
      destruct Hf as [Hs Ht]. apply negb_true_iff in Hs, Ht.
      split; [exact Hs|]. split; [exact Ht|].
      pose proof (Qmin_plus_Qmax (x (GetVertices.sourceOffset p))
                                 (x (GetVertices.targetOffset p))) as Ex.
      pose proof (Qmin_plus_Qmax (y (GetVertices.sourceOffset p))
                                 (y (GetVertices.targetOffset p))) as Ey.
      cbn in Hc.
      destruct Hc as [<-|[<-|[<-|[<-|[<-|[<-|[<-|[<-|[]]]]]]]]]; cbn [x y];
        ((left; rewrite Ex; reflexivity) || (right; rewrite Ey; reflexivity)).
    + intros H. apply orb_false_iff in E. destruct E as [E1 E2].
      destruct H as [H|H]; apply Qeq_bool_iff in H; congruence.
Qed.

Lemma getCenterPoints_candidates_witness :
  exists points,
    getCenterPoints
      {| GetVertices.source := Rect.mkNodeRect 0 0 100 50;
         GetVertices.target := Rect.mkNodeRect 200 150 100 50;
         GetVertices.sourceOffset := pt "so" 100 25;
         GetVertices.targetOffset := pt "to" 100 175 |} = Some points
    /\ points = [].
Proof.
  destruct (getCenterPoints_candidates
              {| GetVertices.source := Rect.mkNodeRect 0 0 100 50;
                 GetVertices.target := Rect.mkNodeRect 200 150 100 50;
                 GetVertices.sourceOffset := pt "so" 100 25;
                 GetVertices.targetOffset := pt "to" 100 175 |})
    as (points & E & _ & _ & H).
  exists points. split; [exact E|]. apply H. left. reflexivity.
Defined.

(** ** Intersection of two segments *)

(** When the first segment has no length the cross product is 0 and the test
    answers false. *)
Lemma isSegmentsIntersected_point (p0 p1 p2 p3 : ControlPoint) :
  isEqualPoint p0 p1 = true -> isSegmentsIntersected p0 p1 p2 p3 = false.
Proof.
  unfold isEqualPoint. rewrite andb_true_iff, !Qeq_bool_iff. intros [Hx Hy].
  unfold isSegmentsIntersected.
  replace (Qeq_bool ((x p1 - x p0) * (y p3 - y p2) - (y p1 - y p0) * (x p3 - x p2)) 0)
    with true; [reflexivity|].
  symmetry. apply Qeq_bool_iff. rewrite Hx, Hy. ring.
Qed.

(** X13.  [isSegmentsIntersected] answers false whenever one of the two
    segments has no length, even for a point on the other segment, and for a
    segment against itself, given in the same or in the other direction. *)
Theorem isSegmentsIntersected_degenerate (p0 p1 p2 p3 : ControlPoint) :
  (isEqualPoint p0 p1 = true -> isSegmentsIntersected p0 p1 p2 p3 = false)
  /\ (isEqualPoint p2 p3 = true -> isSegmentsIntersected p0 p1 p2 p3 = false)
  /\ isSegmentsIntersected p0 p1 p0 p1 = false
  /\ isSegmentsIntersected p0 p1 p1 p0 = false.
Proof.
  split; [apply isSegmentsIntersected_point|].
  split; [|split].
  - unfold isEqualPoint. rewrite andb_true_iff, !Qeq_bool_iff. intros [Hx Hy].
    unfold isSegmentsIntersected.
    replace (Qeq_bool ((x p1 - x p0) * (y p3 - y p2) - (y p1 - y p0) * (x p3 - x p2)) 0)
      with true; [reflexivity|].
    symmetry. apply Qeq_bool_iff. rewrite Hx, Hy. ring.
  - unfold isSegmentsIntersected.
    replace (Qeq_bool ((x p1 - x p0) * (y p1 - y p0) - (y p1 - y p0) * (x p1 - x p0)) 0)
      with true; [reflexivity|].
    symmetry. apply Qeq_bool_iff. ring.
  - unfold isSegmentsIntersected.
    replace (Qeq_bool ((x p1 - x p0) * (y p0 - y p1) - (y p1 - y p0) * (x p0 - x p1)) 0)
      with true; [reflexivity|].
    symmetry. apply Qeq_bool_iff. ring.
Qed.

Lemma isSegmentsIntersected_degenerate_witness :
  isSegmentsIntersected (pt "a" 5 0) (pt "b" 5 0) (pt "c" 0 0) (pt "d" 10 0) = false
  /\ isSegmentsIntersected (pt "c" 0 0) (pt "d" 10 0) (pt "a" 5 0) (pt "b" 5 0) = false.
Proof.
  split.
  - apply (proj1 (isSegmentsIntersected_degenerate
                    (pt "a" 5 0) (pt "b" 5 0) (pt "c" 0 0) (pt "d" 10 0))).
    reflexivity.
  - apply (proj1 (proj2 (isSegmentsIntersected_degenerate
                           (pt "c" 0 0) (pt "d" 10 0) (pt "a" 5 0) (pt "b" 5 0)))).
    reflexivity.
Defined.

(** X14.  [isSegmentsIntersected] does not depend on the order the two
    segments are given in. *)
Theorem isSegmentsIntersected_swap (p0 p1 p2 p3 : ControlPoint) :
  isSegmentsIntersected p0 p1 p2 p3 = isSegmentsIntersected p2 p3 p0 p1.
Proof.
  unfold isSegmentsIntersected.
  set (s1x := x p1 - x p0). set (s1y := y p1 - y p0).
  set (s2x := x p3 - x p2). set (s2y := y p3 - y p2).
  destruct (Qeq_bool (s1x * s2y - s1y * s2x) 0) eqn:E;
    destruct (Qeq_bool (s2x * s1y - s2y * s1x) 0) eqn:E'.
  - reflexivity.
  - apply Qeq_bool_iff in E.
    assert (H : s2x * s1y - s2y * s1x == 0) by lra.
    apply Qeq_bool_iff in H. congruence.
  - apply Qeq_bool_iff in E'.
    assert (H : s1x * s2y - s1y * s2x == 0) by lra.
    apply Qeq_bool_iff in H. congruence.
  - assert (Hc : ~ s1x * s2y - s1y * s2x == 0).
    { intros H. apply Qeq_bool_iff in H. congruence. }
    assert (Hd : ~ - s2x * s1y + s1x * s2y == 0) by (intros H; apply Hc; lra).
    assert (Hd' : ~ - s1x * s2y + s2x * s1y == 0) by (intros H; apply Hc; lra).
    assert (Es : (s2y * (x p0 - x p2) - s2x * (y p0 - y p2)) / (- s1x * s2y + s2x * s1y)
                 == (s2x * (y p0 - y p2) - s2y * (x p0 - x p2)) / (- s2x * s1y + s1x * s2y))
      by (field; split; assumption).
    assert (Et : (s1x * (y p2 - y p0) - s1y * (x p2 - x p0)) / (- s1x * s2y + s2x * s1y)
                 == (s1y * (x p2 - x p0) - s1x * (y p2 - y p0)) / (- s2x * s1y + s1x * s2y))
      by (field; split; assumption).
    unfold Qgeb. rewrite Es, Et.
    repeat match goal with |- context [Qle_bool ?a ?b] =>
      destruct (Qle_bool a b); cbn [andb] end; reflexivity.
Qed.

(** ** Intersection of a segment and a rect *)

(** X15.  A segment without length, a point given twice, is never reported
    as crossing a rect, not even when the point lies on the border of the
    rect: against each of the four sides the cross product is 0. *)
Theorem isSegmentCrossingRect_zero_length (p1 p2 : ControlPoint) (box : NodeRect) :
  isEqualPoint p1 p2 = true ->
  isSegmentCrossingRect p1 p2 box = false.
Proof.
  intros H. unfold isSegmentCrossingRect.
  destruct (Qeq_bool (Rect.width box) 0 && Qeq_bool (Rect.height box) 0);
    [reflexivity|].
  unfold getRectVertices, getRectVerticesFromSides.
  now rewrite !(isSegmentsIntersected_point p1 p2) by exact H.
Qed.

Lemma isSegmentCrossingRect_zero_length_witness :
  isSegmentCrossingRect (pt "p1" 0 5) (pt "p2" 0 5) (Rect.mkNodeRect 0 0 10 10)
  = false.
Proof.
  apply isSegmentCrossingRect_zero_length. reflexivity.
Defined.

(** ** Coordinate merging: fixed points and prefixes *)

Lemma emptyTable_settled (t : Q) : Settled t emptyTable.
Proof. split; [intros [] a [] | intros [] a b []]. Qed.

Lemma emptyTable_within (R : Positions) (axis : Axis) : within emptyTable R axis.
Proof. destruct axis; intros e []. Qed.

(** X18.  Merging is idempotent: merged points pass through a second merge
    with the same threshold unchanged. *)
Theorem mergeClosePoints_idempotent (points : list ControlPoint) (threshold : Q) :
  mergeClosePoints (mergeClosePoints points threshold) threshold
  = mergeClosePoints points threshold.
Proof.
  unfold mergeClosePoints. fold emptyTable.
  apply (mergeFrom_fixed threshold (tableAfter threshold emptyTable points)).
  - apply tableAfter_settled, emptyTable_settled.
  - apply emptyTable_within.
  - apply emptyTable_within.
  - intros q Hq. now apply mergeFrom_in_table.
Qed.

(** X19.  Merging works from the front: the points merged from a list are
    the first points merged from any longer list that starts with it. *)
Theorem mergeClosePoints_prefix (l1 l2 : list ControlPoint) (threshold : Q) :
  firstn (length l1) (mergeClosePoints (l1 ++ l2) threshold)
  = mergeClosePoints l1 threshold.
Proof.
  unfold mergeClosePoints. rewrite mergeFrom_app.
  rewrite <- (length_mergeFrom threshold {| onX := []; onY := [] |} l1) at 1.
  rewrite firstn_app, Nat.sub_diag, firstn_all. cbn. apply app_nil_r.
Qed.

(** X20.  Points with integer coordinates of which, on each axis, any two
    are the same or at least the threshold apart are left as they are. *)
Theorem mergeClosePoints_settled_input (points : list ControlPoint) (threshold : Q) :
  (forall p axis, In p points ->
     floor (coordinate axis p) = coordinate axis p) ->
  (forall p q axis, In p points -> In q points ->
     Qabs (coordinate axis p - coordinate axis q) < threshold ->
     coordinate axis p == coordinate axis q) ->
  mergeClosePoints points threshold = points.
Proof.
  intros Hint Hsep.
  pose (R := {| onX := map x points; onY := map y points |}).
  assert (HinR : forall axis e, In e (positionsOf R axis) ->
                   exists p, In p points /\ e = coordinate axis p).
  { intros [] e He; cbn in He; apply in_map_iff in He;
      destruct He as (p & <- & Hp); exists p; auto. }
  unfold mergeClosePoints. fold emptyTable.
  apply (mergeFrom_fixed threshold R).
  - split.
    + intros ax a Ha. destruct (HinR ax a Ha) as (p & Hp & ->). now apply Hint.
    + intros ax a b Ha Hb Hab.
      destruct (HinR ax a Ha) as (p & Hp & ->).
      destruct (HinR ax b Hb) as (q & Hq & ->).
      apply Qltb_lt in Hab. pose proof (Hsep p q ax Hp Hq Hab) as E.
      rewrite <- (Hint p ax Hp), <- (Hint q ax Hq). unfold floor.
      now rewrite E.
  - apply emptyTable_within.
  - apply emptyTable_within.
  - intros q Hq. split; [apply (in_map x) | apply (in_map y)]; exact Hq.
Qed.

Lemma mergeClosePoints_settled_input_witness :
  mergeClosePoints [pt "a" 0 0; pt "b" 4 0; pt "c" 4 10] defaultThreshold
  = [pt "a" 0 0; pt "b" 4 0; pt "c" 4 10].
Proof.
  apply mergeClosePoints_settled_input.
  - intros p axis [<-|[<-|[<-|[]]]]; destruct axis; reflexivity.
  - intros p q axis [<-|[<-|[<-|[]]]] [<-|[<-|[<-|[]]]]; destruct axis;
      cbn; intros H; try reflexivity; discriminate H.
Defined.

(** ** Duplicate removal: what the result looks like *)

Lemma Subsequence_refl {A : Type} (l : list A) : Subsequence l l.
Proof. induction l; constructor; assumption. Qed.

Lemma Subsequence_app {A : Type} (l1 l2 l : list A) :
  Subsequence l1 l2 -> Subsequence (l1 ++ l) (l2 ++ l).
Proof.
  induction 1; cbn; [apply Subsequence_refl | |]; constructor; assumption.
Qed.

Lemma dedupFrom_Subsequence seen l : Subsequence (dedupFrom seen l) l.
Proof.
  revert seen. induction l as [|p l IH]; intros seen; cbn; [constructor|].
  destruct (setHas seen (keyOf p)); constructor; apply IH.
Qed.

Lemma dedupFrom_fresh seen l :
  Forall (fun p => setHas seen (keyOf p) = false) (dedupFrom seen l)
  /\ distinctCoordinates (dedupFrom seen l).
Proof.
  revert seen. induction l as [|p l IH]; intros seen; cbn;
    [split; constructor|].
  destruct (setHas seen (keyOf p)) eqn:E; [apply IH|].
  destruct (IH (seen ++ [keyOf p])) as [Hf Hd].
  assert (Hf' : Forall (fun q => setHas seen (keyOf q) = false
                                 /\ isEqualPoint p q = false)
                       (dedupFrom (seen ++ [keyOf p]) l)).
  { eapply Forall_impl; [|exact Hf]. cbv beta. intros q Hq.
    rewrite setHas_app in Hq. apply orb_false_iff in Hq.
    destruct Hq as [H1 H2]. split; [exact H1|].
    cbn in H2. rewrite orb_false_r in H2.
    rewrite isEqualPoint_sym. exact H2. }
  split.
  - constructor; [exact E|]. eapply Forall_impl; [|exact Hf']. cbv beta. tauto.
  - constructor; [|exact Hd]. eapply Forall_impl; [|exact Hf']. cbv beta. tauto.
Qed.

Lemma distinctCoordinates_snoc (l : list ControlPoint) (z : ControlPoint) :
  distinctCoordinates l -> Forall (fun p => isEqualPoint p z = false) l ->
  distinctCoordinates (l ++ [z]).
Proof.
  unfold distinctCoordinates. induction 1 as [|a l Ha Hl IH]; intros Hz; cbn.
  - constructor; constructor.
  - inversion Hz; subst. constructor; [|now apply IH].
    apply Forall_app. split; [exact Ha|]. now constructor.
Qed.

(** X21.  In the list [removeRepeatPoints] returns for a non-empty list no
    two points have the same coordinates. *)
Theorem removeRepeatPoints_distinct (init : list ControlPoint) (lastP : ControlPoint) :
  exists out,
    removeRepeatPoints (init ++ [lastP]) = Some out
    /\ distinctCoordinates out.
Proof.
  eexists. split; [apply removeRepeatPoints_snoc|].
  destruct (dedupFrom_fresh [keyOf lastP] init) as [Hf Hd].
  apply distinctCoordinates_snoc; [exact Hd|].
  eapply Forall_impl; [|exact Hf]. cbv beta. intros p Hp.
  cbn in Hp. rewrite orb_false_r in Hp. exact Hp.
Qed.

Lemma isEqualPoint_refl (p : ControlPoint) : isEqualPoint p p = true.
Proof. exact (key_eqb_refl (keyOf p)). Qed.

Lemma dedupFrom_covers seen l p :
  In p l ->
  setHas seen (keyOf p) = true
  \/ exists q, In q (dedupFrom seen l) /\ isEqualPoint p q = true.
Proof.
  revert seen. induction l as [|h l IH]; intros seen; [intros []|].
  cbn. intros [->|Hp].
  - destruct (setHas seen (keyOf p)) eqn:E; [now left|].
    right. exists p. split; [now left | apply isEqualPoint_refl].
  - destruct (setHas seen (keyOf h)) eqn:E.
    + apply IH, Hp.
    + destruct (IH (seen ++ [keyOf h]) Hp) as [H|(q & Hq & Hpq)].
      * rewrite setHas_app in H. apply orb_true_iff in H.
        destruct H as [H|H]; [now left|].
        right. exists h. split; [now left|].
        cbn in H. now rewrite orb_false_r in H.
      * right. exists q. split; [now right | exact Hpq].
Qed.

(** X22.  The list [removeRepeatPoints] returns is the input with some
    points left out, in the same order; it ends with the last point of the
    input, and every point of the input has a point at its coordinates in
    it. *)
Theorem removeRepeatPoints_covers (init : list ControlPoint) (lastP : ControlPoint) :
  exists out,
    removeRepeatPoints (init ++ [lastP]) = Some out
    /\ Subsequence out (init ++ [lastP])
    /\ lastOf out = Some lastP
    /\ Forall (fun p => exists q, In q out /\ isEqualPoint p q = true)
              (init ++ [lastP]).
Proof.
  eexists. split; [apply removeRepeatPoints_snoc|].
  split; [apply Subsequence_app, dedupFrom_Subsequence|].
  split; [apply lastOf_snoc|].
  apply Forall_forall. intros p Hp. apply in_app_or in Hp.
  destruct Hp as [Hp|[<-|[]]].
  - destruct (dedupFrom_covers [keyOf lastP] init p Hp) as [H|(q & Hq & Hpq)].
    + exists lastP. split; [apply in_or_app; right; now left|].
      cbn in H. now rewrite orb_false_r in H.
    + exists q. split; [apply in_or_app; now left | exact Hpq].
  - exists lastP. split; [apply in_or_app; right; now left|].
    apply isEqualPoint_refl.
Qed.

Lemma removeRepeatPoints_Some (points out : list ControlPoint) :
  removeRepeatPoints points = Some out ->
  exists init lastP, points = init ++ [lastP]
                     /\ out = dedupFrom [keyOf lastP] init ++ [lastP].
Proof.
  destruct points as [|p points] using rev_ind; [discriminate|].
  rewrite removeRepeatPoints_snoc. intros [= <-]. eauto.
Qed.

(** X23.  [removeRepeatPoints] raises on the empty list, and a list it has
    returned it returns unchanged. *)
Theorem removeRepeatPoints_idempotent :
  removeRepeatPoints [] = None
  /\ forall points out,
       removeRepeatPoints points = Some out ->
       removeRepeatPoints out = Some out.
Proof.
  split; [reflexivity|]. intros points out H.
  apply removeRepeatPoints_Some in H. destruct H as (init & lastP & -> & ->).
  now rewrite removeRepeatPoints_snoc, dedupFrom_idem.
Qed.

Lemma removeRepeatPoints_idempotent_witness :
  removeRepeatPoints [pt "a" 0 0; pt "c" 50 0; pt "e" 100 0]
  = Some [pt "a" 0 0; pt "c" 50 0; pt "e" 100 0].
Proof.
  apply (proj2 removeRepeatPoints_idempotent
           [pt "a" 0 0; pt "b" 0 0; pt "c" 50 0; pt "d" 100 0; pt "e" 100 0]).
  reflexivity.
Defined.

(** ** Collinearity reduction: size and fixed points *)

Lemma keptInterior_Subsequence (prev : ControlPoint) (rest : list ControlPoint) :
  Subsequence (keptInterior prev rest) (removelast rest).
Proof.
  revert prev. induction rest as [|p rest IH]; intros prev; [constructor|].
  destruct rest as [|next tl]; [constructor|].
  cbn [keptInterior].
  change (removelast (p :: next :: tl)) with (p :: removelast (next :: tl)).
  destruct (negb (isInLine p prev next)); constructor; apply IH.
Qed.

Lemma Subsequence_length {A : Type} (l1 l2 : list A) :
  Subsequence l1 l2 -> (length l1 <= length l2)%nat.
Proof. induction 1; cbn; lia. Qed.

Lemma Subsequence_In {A : Type} (l1 l2 : list A) (a : A) :
  Subsequence l1 l2 -> In a l1 -> In a l2.
Proof.
  induction 1; cbn; [tauto | auto | intros [->|H']; auto].
Qed.

Lemma removelast_last_default {A : Type} (l : list A) (a : A) :
  removelast (a :: l) ++ [last l a] = a :: l.
Proof.
  revert a. induction l as [|b l IH]; intros a; [reflexivity|].
  change (removelast (a :: b :: l)) with (a :: removelast (b :: l)).
  cbn [app]. f_equal.
  replace (last (b :: l) a) with (last l b); [apply IH|].
  destruct l as [|c l]; [reflexivity | exact (last_default l b a c)].
Qed.

(** X24.  [reducePoints] returns the first point, some of the points between
    the first and the last in their order, and the last point: at least two
    elements, and for an input of at least two points never more elements
    than the input.  Only for the empty input the two elements are
    [undefined]. *)
Theorem reducePoints_shape :
  reducePoints [] = [None; None]
  /\ forall (first : ControlPoint) (rest : list ControlPoint),
       exists kept,
         reducePoints (first :: rest) = map Some (first :: kept ++ [last rest first])
         /\ Subsequence kept (removelast rest)
         /\ (2 <= length (reducePoints (first :: rest))
             <= Nat.max 2 (length (first :: rest)))%nat.
Proof.
  split; [reflexivity|]. intros first rest.
  exists (keptInterior first rest).
  split; [apply reducePoints_cons|].
  split; [apply keptInterior_Subsequence|].
  rewrite reducePoints_cons, length_map. cbn [length]. rewrite length_app. cbn [length].
  pose proof (Subsequence_length _ _ (keptInterior_Subsequence first rest)) as H.
  destruct rest as [|p rest]; [cbn; lia|].
  assert (length (removelast (p :: rest)) = length rest).
  { pose proof (removelast_last_default rest p) as E.
    apply (f_equal (@length _)) in E. rewrite length_app in E.
    cbn [length] in E. lia. }
  cbn [length]. lia.
Qed.

Lemma noCollinearInterior_keptInterior (a : ControlPoint) (l : list ControlPoint) :
  l <> [] -> noCollinearInterior (a :: l) = true ->
  keptInterior a l ++ [last l a] = l.
Proof.
  revert a. induction l as [|p l IH]; intros a Hne H; [congruence|].
  destruct l as [|next tl]; [reflexivity|].
  cbn [noCollinearInterior] in H. apply andb_true_iff in H. destruct H as [H1 H2].
  cbn [keptInterior]. rewrite H1. cbn [app]. f_equal.
  replace (last (p :: next :: tl) a) with (last (next :: tl) p)
    by exact (last_default tl p a next).
  apply IH; [discriminate | exact H2].
Qed.


(** X25.  For an input without two consecutive points at the same
    coordinates, reducing the reduced path changes nothing. *)
Theorem reducePoints_idempotent (first : ControlPoint) (rest : list ControlPoint) :
  noConsecutiveRepeat (first :: rest) = true ->
  exists out,
    reducePoints (first :: rest) = map Some out
    /\ reducePoints out = map Some out.
Proof.
  intros Hrep. eexists. split; [apply reducePoints_cons|].
  rewrite reducePoints_cons. f_equal. f_equal.
  apply noCollinearInterior_keptInterior.
  - destruct (keptInterior first rest); discriminate.
  - destruct rest as [|p rest]; [reflexivity|].
    apply (reduce_run_invariant rest p first first None
             (fun d => heads d first p) Hrep); [|exact I].
    left. split; [reflexivity|]. intros d. reflexivity.
Qed.

Lemma reducePoints_idempotent_witness :
  exists out,
    reducePoints [pt "a" 0 0; pt "b" 5 0; pt "c" 9 0; pt "d" 9 4] = map Some out
    /\ reducePoints out = map Some out.
Proof.
  apply reducePoints_idempotent. reflexivity.
Defined.

Lemma reducePoints_no_collinear_interior_witness :
  exists out,
    reducePoints [pt "a" 0 0; pt "b" 5 0; pt "c" 9 0; pt "d" 9 4] = map Some out
    /\ noCollinearInterior out = true.
Proof.
  apply reducePoints_no_collinear_interior. reflexivity.
Defined.

(** ** The optimizer: the edge points it returns *)

Lemma distinctCoordinates_keys (l1 l2 : list ControlPoint) :
  map keyOf l1 = map keyOf l2 -> distinctCoordinates l1 -> distinctCoordinates l2.
Proof.
  unfold distinctCoordinates. intros E H. revert l2 E.
  induction H as [|a l Ha Hl IH]; intros [|b l2] E; try discriminate;
    constructor.
  - cbn [map] in E.
    assert (Ek : keyOf a = keyOf b) by congruence.
    assert (El : map keyOf l = map keyOf l2) by congruence.
    clear E IH Hl. revert l2 El.
    induction Ha as [|c l Hc Hl IH]; intros [|d l2] El; try discriminate;
      constructor.
    + cbn [map] in El. assert (Ec : keyOf c = keyOf d) by congruence.
      unfold isEqualPoint in *. unfold keyOf in Ek, Ec.
      injection Ek as <- <-. injection Ec as <- <-. exact Hc.
    + apply IH. cbn [map] in El. congruence.
  - apply IH. cbn [map] in E. congruence.
Qed.

Lemma ids_renumber_from (k : nat) (l : list ControlPoint) :
  map id (map (fun '(idx, p) => setId p (showNat (idx + 1)))
              (combine (seq k (length l)) l))
  = map showNat (seq (k + 1) (length l)).
Proof.
  revert k. induction l as [|p l IH]; intros k; [reflexivity|].
  cbn [length seq combine map]. f_equal. rewrite IH. f_equal.
Qed.

(** X27.  The edge points the optimizer returns are never empty: they end
    with a point at the coordinates of the returned target offset, no two of
    them have the same coordinates, their ids are "1", "2", ... in order,
    and their coordinates are integers. *)
Theorem optimizeInputPoints_edgePoints (p : OptimizePointsParams) :
  exists r,
    optimizeInputPoints p = Some r
    /\ (exists init lastP,
          outEdgePoints r = init ++ [lastP]
          /\ keyOf lastP = keyOf (outTargetOffset r))
    /\ distinctCoordinates (outEdgePoints r)
    /\ map id (outEdgePoints r)
       = map showNat (seq 1 (length (outEdgePoints r)))
    /\ Forall (fun q => floor (x q) = x q /\ floor (y q) = y q) (outEdgePoints r).
Proof.
  pose (t := defaultThreshold).
  pose proof (mergeClosePoints_mergedInput p t) as HM. cbv zeta in HM.
  fold emptyTable in HM.
  set (pos1 := tableAfter t emptyTable [point (source p)]) in HM.
  set (pos2 := tableAfter t pos1 [sourceOffset p]) in HM.
  set (pos3 := tableAfter t pos2 (edgePoints p)) in HM.
  set (pos4 := tableAfter t pos3 [targetOffset p]) in HM.
  set (s' := mergeOne t emptyTable (source p)) in HM.
  set (so' := mergeOne t pos1 (sourceOffset p)) in HM.
  set (E' := mergeFrom t pos2 (edgePoints p)) in HM.
  set (to' := mergeOne t pos3 (targetOffset p)) in HM.
  set (t' := mergeOne t pos4 (target p)) in HM.
  eexists. split; [exact (optimizeInputPoints_of_merged p _ _ _ _ _ HM)|].
  cbn [outEdgePoints outTargetOffset].
  set (D := dedupFrom [keyOf to'] (so' :: E')).
  assert (Hk : map keyOf (renumber (D ++ [to'])) = map keyOf D ++ [keyOf to']).
  { now rewrite keys_renumber, map_app. }
  split; [|split; [|split]].
  - destruct (renumber (D ++ [to'])) as [|q l] using rev_ind.
    + destruct D; discriminate Hk.
    + exists l, q. split; [reflexivity|].
      rewrite map_app in Hk. cbn [map] in Hk.
      apply app_inj_tail in Hk. tauto.
  - apply (distinctCoordinates_keys (D ++ [to'])); [now rewrite keys_renumber|].
    destruct (dedupFrom_fresh [keyOf to'] (so' :: E')) as [Hf Hd].
    apply distinctCoordinates_snoc; [exact Hd|].
    eapply Forall_impl; [|exact Hf]. cbv beta. intros q Hq.
    cbn in Hq. rewrite orb_false_r in Hq. exact Hq.
  - unfold renumber, indexed. rewrite ids_renumber_from.
    now rewrite length_map, length_combine, length_seq, Nat.min_id.
  - assert (HR : Settled t (tableAfter t emptyTable (mergedInput p)))
      by apply tableAfter_settled, emptyTable_settled.
    apply Forall_forall. intros q Hq.
    apply renumber_coordinates in Hq. destruct Hq as (q0 & Hq0 & -> & ->).
    assert (Hin : In q0 (mergeFrom t emptyTable (mergedInput p))).
    { change (mergeFrom t emptyTable (mergedInput p))
        with (mergeClosePoints (mergedInput p) t).
      rewrite HM. right. apply in_app_or in Hq0.
      destruct Hq0 as [Hq0|[<-|[]]].
      - apply dedupFrom_incl in Hq0. destruct Hq0 as [<-|Hq0]; [now left|].
        right. apply in_or_app. now left.
      - right. apply in_or_app. right. now left. }
    apply mergeFrom_in_table in Hin. destruct Hin as [Hx Hy].
    split; [exact (proj1 HR AxisX _ Hx) | exact (proj1 HR AxisY _ Hy)].
Qed.

(** ** Dragging keeps the shape of the segment *)


(** ** The chain of segments *)

Lemma buildEdges_cons2 (a b : ControlPoint) (l : list ControlPoint) :
  buildEdges (a :: b :: l) = {| start := a; end_ := b |} :: buildEdges (b :: l).
Proof.
  unfold buildEdges.
  replace (length (a :: b :: l) - 1)%nat with (S (length (b :: l) - 1))
    by (cbn; lia).
  cbn [seq flat_map nth_error Nat.add app]. f_equal.
  rewrite <- seq_shift, flat_map_concat_map, map_map, <- flat_map_concat_map.
  apply flat_map_ext. intros i. reflexivity.
Qed.

Lemma length_buildEdges (points : list ControlPoint) :
  length (buildEdges points) = (length points - 1)%nat.
Proof.
  induction points as [|a l IH]; [reflexivity|].
  destruct l as [|b l]; [reflexivity|].
  rewrite buildEdges_cons2. cbn [length] in *. lia.
Qed.

(** X29.  [EdgeControllers] cuts a path into one segment per pair of
    consecutive points: the starts of the segments are the points without
    the last one, and the ends are the points without the first one; so each
    segment ends where the next one starts, and a path of n points gives
    n - 1 segments (none for an empty path or a single point). *)
Theorem buildEdges_chain (points : list ControlPoint) :
  map start (buildEdges points) = removelast points
  /\ map end_ (buildEdges points) = tl points
  /\ length (buildEdges points) = (length points - 1)%nat.
Proof.
  assert (H : map start (buildEdges points) = removelast points
              /\ map end_ (buildEdges points) = tl points).
  { induction points as [|a l IH]; [split; reflexivity|].
    destruct l as [|b l]; [split; reflexivity|].
    rewrite buildEdges_cons2. destruct IH as [IH1 IH2]. cbn [map start end_ tl].
    rewrite IH1. split; [reflexivity|].
    rewrite IH2. reflexivity. }
  destruct H as [H1 H2]. repeat split; try assumption.
  apply length_buildEdges.
Qed.

Lemma nth_error_indexed_from {A : Type} (k i : nat) (l : list A) :
  nth_error (combine (seq k (length l)) l) i
  = option_map (fun a => ((k + i)%nat, a)) (nth_error l i).
Proof.
  revert k i. induction l as [|a l IH]; intros k [|i]; cbn; try reflexivity.
  - now rewrite Nat.add_0_r.
  - rewrite IH. now rewrite Nat.add_succ_r.
Qed.

(** X30.  In the chain [EdgeControllers] builds, the segment at place [i]
    has index [i]; its [previous] is the segment two places before it and is
    missing exactly for the first two segments; its [next] is the segment
    two places after it and is missing exactly for the last two. *)
Theorem buildSmartEdges_links (points : list ControlPoint) (i : nat) (e : SmartEdge) :
  nth_error (buildSmartEdges points) i = Some e ->
  idx e = i
  /\ nth_error (buildEdges points) i = Some (edgeLine e)
  /\ previous e = (if (2 <=? i)%nat then Some (i - 2)%nat else None)
  /\ next e = (if (i + 2 <? length points - 1)%nat then Some (i + 2)%nat else None).
Proof.
  unfold buildSmartEdges, indexed. rewrite nth_error_map, nth_error_indexed_from.
  destruct (nth_error (buildEdges points) i) as [line|] eqn:E; [|discriminate].
  cbn [option_map]. intros [= <-]. cbn [idx edgeLine previous next].
  rewrite length_buildEdges.
  repeat split.
  - unfold elementIndex. destruct (2 <=? i)%nat eqn:H.
    + apply Nat.leb_le in H.
      replace (0 <=? Z.of_nat i - 2)%Z with true by (symmetry; apply Z.leb_le; lia).
      assert (Hi : (i < length (buildEdges points))%nat)
        by (apply nth_error_Some; congruence).
      rewrite length_buildEdges in Hi.
      replace (Z.of_nat i - 2 <? Z.of_nat (length points - 1))%Z with true
        by (symmetry; apply Z.ltb_lt; lia).
      cbn. f_equal. lia.
    + apply Nat.leb_gt in H.
      replace (0 <=? Z.of_nat i - 2)%Z with false by (symmetry; apply Z.leb_gt; lia).
      reflexivity.
  - unfold elementIndex.
    replace (0 <=? Z.of_nat i + 2)%Z with true by (symmetry; apply Z.leb_le; lia).
    destruct (i + 2 <? length points - 1)%nat eqn:H.
    + apply Nat.ltb_lt in H.
      replace (Z.of_nat i + 2 <? Z.of_nat (length points - 1))%Z with true
        by (symmetry; apply Z.ltb_lt; lia).
      cbn. f_equal. lia.
    + apply Nat.ltb_ge in H.
      replace (Z.of_nat i + 2 <? Z.of_nat (length points - 1))%Z with false
        by (symmetry; apply Z.ltb_ge; lia).
      reflexivity.
Qed.

Lemma buildSmartEdges_links_witness :
  idx (mkSmartEdge 2 (mkILine (pt "c" 9 5) (pt "d" 20 5)) (Some 0%nat) (Some 4%nat)) = 2%nat
  /\ nth_error (buildEdges [pt "a" 0 0; pt "b" 9 0; pt "c" 9 5; pt "d" 20 5;
                            pt "e" 20 9; pt "f" 30 9]) 2
     = Some (mkILine (pt "c" 9 5) (pt "d" 20 5))
  /\ Some 0%nat = Some 0%nat
  /\ Some 4%nat = Some 4%nat.
Proof.
  exact (buildSmartEdges_links
           [pt "a" 0 0; pt "b" 9 0; pt "c" 9 5; pt "d" 20 5; pt "e" 20 9; pt "f" 30 9]
           2 (mkSmartEdge 2 (mkILine (pt "c" 9 5) (pt "d" 20 5)) (Some 0%nat) (Some 4%nat))
           eq_refl).
Defined.
